(** * Spin wheel: angle index, targeted-spin planner, winner resolution,
      fixed-ticket queue.

    Shallow embedding of
      - lib/ticket-angle-mapper.ts  (buildTicketAngleMap, getAngleForTicket)
      - lib/fixed-spin-physics.ts   (calculateFixedSpinByTicket)
      - lib/wheel-storage.ts        (setFixedTicketsQueue and its snapshot)
      - components/WheelApp.jsx     (spinWheel and the winner block of animate)

    Numbers.  The source computes on IEEE doubles; the development reads every
    arithmetic expression over the exact rationals [Q], with JavaScript's [%]
    as the truncated remainder.  All statements are therefore statements of
    exact arithmetic.  [Math.random()] is a parameter: each call site takes its
    draw [u] with [0 <= u < 1] from a record of draws. *)

From Stdlib Require Import ZArith QArith Qround Qabs Lqa Lia.
From stdpp Require Import gmap strings list.

Local Open Scope Q_scope.

(** ** Numbers *)

Module Js.

(** [Math.trunc] on a rational: rounding toward zero. *)
Definition trunc (x : Q) : Z := Z.quot (Qnum x) (Zpos (Qden x)).

(** [x % y] on numbers: the remainder carries the sign of the dividend.
    Every use in the modelled code has the divisor 360 or a positive count. *)
Definition rem (x y : Q) : Q := x - y * inject_Z (trunc (x / y)).

(** [Math.floor]. *)
Definition floor (x : Q) : Z := Qfloor x.

(** [Math.min], [Math.abs]. *)
Definition min (x y : Q) : Q := if Qle_bool x y then x else y.
Definition abs (x : Q) : Q := if Qle_bool 0 x then x else - x.

(** Comparisons as the booleans the source branches on. *)
Definition ltb (x y : Q) : bool := negb (Qle_bool y x).
Definition geb (x y : Q) : bool := Qle_bool y x.
Definition gtb (x y : Q) : bool := negb (Qle_bool x y).

End Js.

(** A count [n] as a number. *)
Definition num (n : nat) : Q := inject_Z (Z.of_nat n).

(** [((x % 360) + 360) % 360], the normalisation written out in
    buildTicketAngleMap and in the winner block. *)
Definition normalize (x : Q) : Q := Js.rem (Js.rem x 360 + 360) 360.

(** ** Winner resolution (WheelApp.jsx, animate, completion branch) *)

(** [360 / currentNames.length].  The entry guard of spinWheel keeps an empty
    list away from this code, so the count is positive wherever it is used
    (on 0, JavaScript gives [Infinity] and [Q] gives 0). *)
Definition sliceAngleOf (count : nat) : Q := 360 / num count.

(** [const R = ((frozenRot % 360) + 360) % 360;
    const pointerAngleInOriginal = (360 - R) % 360] *)
Definition pointerAngleInOriginal (frozenRot : Q) : Q :=
  Js.rem (360 - normalize frozenRot) 360.

Definition sliceStart (sliceAngle : Q) (i : nat) : Q :=
  Js.rem (num i * sliceAngle - 90 + 360) 360.

Definition sliceEnd (sliceAngle : Q) (i : nat) : Q :=
  Js.rem ((num i + 1) * sliceAngle - 90 + 360) 360.

(** The body of the first loop: is the pointer inside slice [i]? *)
Definition inSlice (sliceAngle : Q) (i : nat) (pointer : Q) : bool :=
  if Js.ltb (sliceStart sliceAngle i) (sliceEnd sliceAngle i)
  then Js.geb pointer (sliceStart sliceAngle i) && Js.ltb pointer (sliceEnd sliceAngle i)
  else Js.geb pointer (sliceStart sliceAngle i) || Js.ltb pointer (sliceEnd sliceAngle i).

(** [for (let i = 0; i < n; i++) { ... if (inSlice) { selectedIndex = i;
    found = true; break } }], started at [i] with [remaining] iterations left.
    [None] is [found = false]. *)
Fixpoint findSlice (sliceAngle pointer : Q) (i remaining : nat) : option nat :=
  match remaining with
  | O => None
  | S r => if inSlice sliceAngle i pointer then Some i
           else findSlice sliceAngle pointer (S i) r
  end.

Definition sliceCenter (sliceAngle : Q) (i : nat) : Q :=
  Js.rem (num i * sliceAngle - 90 + sliceAngle / 2 + 360) 360.

(** Circular distance of the fallback loop. *)
Definition centerDist (sliceAngle pointer : Q) (i : nat) : Q :=
  let dist := Js.abs (pointer - sliceCenter sliceAngle i) in
  if Js.gtb dist 180 then 360 - dist else dist.

(** The fallback loop.  [minDist] starts at [Infinity], which is [None]. *)
Fixpoint closestCenter (sliceAngle pointer : Q) (i remaining : nat)
    (minDist : option Q) (selectedIndex : nat) : nat :=
  match remaining with
  | O => selectedIndex
  | S r =>
      let dist := centerDist sliceAngle pointer i in
      let better := match minDist with None => true | Some m => Js.ltb dist m end in
      if better then closestCenter sliceAngle pointer (S i) r (Some dist) i
      else closestCenter sliceAngle pointer (S i) r minDist selectedIndex
  end.

(** The whole winner computation for a final rotation and [count] names.
    The index is a non-negative integer, so the branch
    [if (selectedIndex < 0)] is never entered. *)
Definition resolveWinner (frozenRot : Q) (count : nat) : nat :=
  let sliceAngle := sliceAngleOf count in
  let pointer := pointerAngleInOriginal frozenRot in
  let selectedIndex :=
    match findSlice sliceAngle pointer 0 count with
    | Some i => i
    | None => closestCenter sliceAngle pointer 0 count None 0
    end in
  (selectedIndex mod count)%nat.

(** ** Angle index (lib/ticket-angle-mapper.ts) *)

Record Entry := { ticketNumber : string; label : string }.

(** [ticketToAngle] is the index the spin uses; [ticketToIndex] is kept
    "for reference only".  Only [get], [set] and [size] of the two [Map]s are
    used, so insertion order is not modelled. *)
Record TicketAngleMap := {
  ticketToAngle : gmap string Q;
  ticketToIndex : gmap string nat
}.

Definition emptyTicketAngleMap : TicketAngleMap :=
  {| ticketToAngle := ∅; ticketToIndex := ∅ |}.

(** [sliceStart + sliceAngle / 2] with [sliceStart = index * sliceAngle - 90]. *)
Definition segmentCenterAngle (sliceAngle : Q) (index : nat) : Q :=
  (num index * sliceAngle - 90) + sliceAngle / 2.

(** One call of the [forEach] callback: two [Map.set]s. *)
Definition setEntry (sliceAngle : Q) (index : nat) (entry : Entry)
    (m : TicketAngleMap) : TicketAngleMap :=
  let normalizedAngle := normalize (segmentCenterAngle sliceAngle index) in
  {| ticketToAngle := <[ticketNumber entry := normalizedAngle]> (ticketToAngle m);
     ticketToIndex := <[ticketNumber entry := index]> (ticketToIndex m) |}.

(** [entries.forEach((entry, index) => ...)], from position [index] on. *)
Fixpoint forEachEntry (sliceAngle : Q) (index : nat) (entries : list Entry)
    (m : TicketAngleMap) : TicketAngleMap :=
  match entries with
  | [] => m
  | entry :: rest => forEachEntry sliceAngle (S index) rest (setEntry sliceAngle index entry m)
  end.

Definition buildTicketAngleMap (entries : list Entry) : TicketAngleMap :=
  match entries with
  | [] => emptyTicketAngleMap
  | _ => forEachEntry (360 / num (length entries)) 0 entries emptyTicketAngleMap
  end.

(** [ticketAngleMap.ticketToAngle.get(ticketNumber) ?? null] *)
Definition getAngleForTicket (ticket : string) (m : TicketAngleMap) : option Q :=
  ticketToAngle m !! ticket.

(** ** Targeted-spin planner (lib/fixed-spin-physics.ts) *)

(** ['A' | 'B' | 'C'].  The [default:] arm of the [switch] is outside the
    type and has no counterpart here. *)
Inductive RotationProfile := ProfileA | ProfileB | ProfileC.

(** The two [Error]s of the targeted path: the missing ticket, thrown by
    calculateFixedSpinByTicket and by spinWheel's own lookup, and the
    [undefined]/[NaN] end rotation. *)
Inductive SpinError :=
  | TicketNotFound (ticket : string)
  | InvalidFixedRotation.

(** The four [Math.random()] calls of calculateFixedSpinByTicket, in the order
    they are made: profile selection (only when no profile is passed),
    duration, turn count, micro offset. *)
Record FixedDraws := {
  uProfile : Q;
  uDuration : Q;
  uRotations : Q;
  uMicro : Q
}.

Definition unit_draw (u : Q) : Prop := 0 <= u /\ u < 1.

Definition fixedDrawsOk (d : FixedDraws) : Prop :=
  unit_draw (uProfile d) /\ unit_draw (uDuration d) /\
  unit_draw (uRotations d) /\ unit_draw (uMicro d).

(** [['A', 'B', 'C'][Math.floor(Math.random() * 3)]] *)
Definition profileAt (k : Z) : RotationProfile :=
  match k with
  | 0%Z => ProfileA
  | 1%Z => ProfileB
  | _ => ProfileC
  end.

Definition selectProfile (profile : option RotationProfile) (u : Q) : RotationProfile :=
  match profile with
  | Some p => p
  | None => profileAt (Js.floor (u * 3))
  end.

Definition minRotations (p : RotationProfile) : Q :=
  match p with ProfileA => 5.5 | ProfileB => 6.0 | ProfileC => 5.2 end.

Definition maxRotations (p : RotationProfile) : Q :=
  match p with ProfileA => 8.2 | ProfileB => 7.8 | ProfileC => 8.5 end.

Definition baseMicroOffsetRange (p : RotationProfile) : Q :=
  match p with ProfileA => 3 | ProfileB => 2.5 | ProfileC => 3.5 end.

Definition profileDuration (p : RotationProfile) (u : Q) : Q :=
  match p with
  | ProfileA => 11000 + u * 500 - 250
  | ProfileB => 11000 + u * 400 - 200
  | ProfileC => 11000 + u * 600 - 300
  end.

(** [(360 - (currentRotation % 360)) % 360] *)
Definition currentPointerAngle (currentRotation : Q) : Q :=
  Js.rem (360 - Js.rem currentRotation 360) 360.

(** [targetAngle - currentPointerAngle], plus 360 when negative. *)
Definition angleToTarget (targetAngle currentRotation : Q) : Q :=
  let a := targetAngle - currentPointerAngle currentRotation in
  if Js.ltb a 0 then a + 360 else a.

(** [sliceAngle * 0.3] with [sliceAngle = 360 / ticketToAngle.size]. *)
Definition maxSafeOffset (totalEntries : nat) : Q := (360 / num totalEntries) * 0.3.

Definition adaptiveMicroOffsetRange (p : RotationProfile) (totalEntries : nat) : Q :=
  Js.min (baseMicroOffsetRange p) (maxSafeOffset totalEntries).

(** [(Math.random() - 0.5) * adaptiveMicroOffsetRange] *)
Definition microOffset (p : RotationProfile) (totalEntries : nat) (u : Q) : Q :=
  (u - 0.5) * adaptiveMicroOffsetRange p totalEntries.

Record FixedSpinResult := {
  endRotation : Q;
  duration : Q;
  profile : RotationProfile
}.

(** The function throws when the ticket has no angle: [inl] is the thrown
    error, [inr] the returned object. *)
Definition calculateFixedSpinByTicket (currentRotation : Q) (ticket : string)
    (m : TicketAngleMap) (profile : option RotationProfile) (d : FixedDraws)
    : SpinError + FixedSpinResult :=
  match ticketToAngle m !! ticket with
  | None => inl (TicketNotFound ticket)
  | Some targetAngle =>
      let selectedProfile := selectProfile profile (uProfile d) in
      let duration := profileDuration selectedProfile (uDuration d) in
      let totalEntries := size (ticketToAngle m) in
      let rotations :=
        minRotations selectedProfile
        + uRotations d * (maxRotations selectedProfile - minRotations selectedProfile) in
      let totalRotation :=
        rotations * 360 + angleToTarget targetAngle currentRotation
        + microOffset selectedProfile totalEntries (uMicro d) in
      inr {| endRotation := currentRotation + totalRotation;
             duration := duration;
             profile := selectedProfile |}
  end.

(** ** Fixed-ticket queue storage (lib/wheel-storage.ts) *)

Module Storage.

Record WheelEntry := {
  ticketNumber : string;
  label : string;
  firstName : string;
  lastName : string
}.

(** [currentListSnapshot], the module-level variable. *)
Record WheelListSnapshot := {
  entries : list WheelEntry;
  fixedTicketNumber : option string;
  fixedTicketsQueue : list string;
  lastUpdated : Z
}.

Inductive QueueError :=
  | TooManyTickets (received : nat)
  | DuplicateTickets
  | UnknownTicket (ticket : string).

(** [currentListSnapshot.entries.some(e => e.ticketNumber === ticket)] *)
Definition ticketExists (snapshot : WheelListSnapshot) (ticket : string) : bool :=
  existsb (fun e => String.eqb (ticketNumber e) ticket) (entries snapshot).

(** [new Set(tickets).size] *)
Definition uniqueSize (tickets : list string) : nat :=
  size (list_to_set tickets : gset string).

(** setFixedTicketsQueue as a transition of the module variable: the first
    component is the thrown error, if any; [now] is [Date.now()].  A [throw]
    leaves before the assignment, so the variable keeps its value. *)
Definition setFixedTicketsQueue (tickets : list string) (now : Z)
    (snapshot : WheelListSnapshot) : option QueueError * WheelListSnapshot :=
  if (3 <? length tickets)%nat then
    (Some (TooManyTickets (length tickets)), snapshot)
  else if negb (uniqueSize tickets =? length tickets)%nat then
    (Some DuplicateTickets, snapshot)
  else
    match List.find (fun ticket => negb (ticketExists snapshot ticket)) tickets with
    | Some ticket => (Some (UnknownTicket ticket), snapshot)
    | None =>
        (None,
         {| entries := entries snapshot;
            fixedTicketNumber := fixedTicketNumber snapshot;
            fixedTicketsQueue := tickets;
            lastUpdated := now |})
    end.

(** A queue that passes the three validations, and one that fails one. *)
Definition validQueue (snapshot : WheelListSnapshot) (tickets : list string) : Prop :=
  (length tickets <= 3)%nat /\ NoDup tickets /\
  forall ticket, ticket ∈ tickets ->
    exists e, e ∈ entries snapshot /\ ticketNumber e = ticket.

Definition malformedQueue (snapshot : WheelListSnapshot) (tickets : list string) : Prop :=
  (3 < length tickets)%nat \/ ~ NoDup tickets \/
  exists ticket, ticket ∈ tickets /\
    forall e, e ∈ entries snapshot -> ticketNumber e <> ticket.

End Storage.

(** ** The spin trigger and the animation (components/WheelApp.jsx) *)

(** The closure [animate] handed to [requestAnimationFrame]: the variables it
    captured when the spin was planned. *)
Record Animation := {
  animNames : list string;
  startRotation : Q;
  animEndRotation : Q;
  animDuration : Q;
  startTime : Q
}.

(** [setWinner({ name, ticketNumber, color, index })]; the display name and
    colour are derived from [index] and are left out. *)
Record Winner := {
  winnerIndex : nat;
  winnerTicketNumber : option string
}.

(** Refs and state of the component that the spin reads or writes.  The
    React state variables ([isSpinning], [finalRotation], [winner]) are read
    at their current value: a spinWheel closure is taken to be the one of the
    latest render.  Sounds, confetti, the popup timer and the [onSpinComplete]
    callback are not part of the state. *)
Record WheelState := {
  names : list string;
  ticketNumbers : list string;
  ticketAngleMap : option TicketAngleMap;
  fixedTicketsQueue : list string;
  spinCount : nat;
  isSpinning : bool;
  finalRotation : Q;
  animationFrame : option Animation;
  isFrozen : bool;
  animationCompleted : bool;
  winnerProcessed : bool;
  winner : option Winner
}.

(** Console output of spinWheel. *)
Inductive Event :=
  | LogSpinStarted (queue : list string)
  | LogFixedModeActivated (ticket : option string) (remainingInQueue spinCount : nat)
  | LogNaturalMode (spinCount : nat)
  | LogFixedSpinByTicket (ticket : string) (targetAngle endRotation duration : Q)
      (profile : RotationProfile)
  | WarnFixedSpinFailed (error : SpinError).

(** How a call ends: it returns [undefined] or an exception leaves it. *)
Inductive Completion :=
  | ReturnedUndefined
  | Thrown (error : SpinError).

Record SpinOutcome := {
  completion : Completion;
  console : list Event;
  after : WheelState
}.

(** Random draws and clock reading of one spinWheel call. *)
Record SpinDraws := {
  fixedDraws : FixedDraws;
  uSpins : Q;
  uAngle : Q;
  now : Q
}.

(** The natural-mode end rotation, written twice in the source (in the
    [catch] block and in the [else] branch). *)
Definition naturalEndRotation (startRotation : Q) (d : SpinDraws) : Q :=
  let minRotations := 5 in
  let maxRotations := 8 in
  let spins := minRotations + uSpins d * (maxRotations - minRotations) in
  let totalRotationDegrees := spins * 360 in
  let randomAngle := uAngle d * 360 in
  startRotation + totalRotationDegrees + randomAngle.

(** [queueCopy.shift() || null]: the empty string is falsy. *)
Definition orNull (ticket : string) : option string :=
  if String.eqb ticket "" then None else Some ticket.

(** STEP 1 of spinWheel: the next ticket, the console line, the new queue and
    the new spin count. *)
Definition consumeQueue (s : WheelState)
    : option string * list Event * list string * nat :=
  match fixedTicketsQueue s with
  | ticket :: queueCopy =>
      (orNull ticket,
       [LogFixedModeActivated (orNull ticket) (length queueCopy) (S (spinCount s))],
       queueCopy, S (spinCount s))
  | [] => (None, [LogNaturalMode (S (spinCount s))], [], S (spinCount s))
  end.

(** [profiles[spinCountRef.current % 3]] *)
Definition cycleProfile (spinCount : nat) : RotationProfile :=
  match (spinCount mod 3)%nat with
  | O => ProfileA
  | 1%nat => ProfileB
  | _ => ProfileC
  end.

(** The body of the [try] block.  The [isNaN] validation cannot fire on a
    rational end rotation. *)
Definition tryFixedSpin (startRotation : Q) (ticket : string) (m : TicketAngleMap)
    (spinCount : nat) (d : SpinDraws) : SpinError + (Q * FixedSpinResult) :=
  match getAngleForTicket ticket m with
  | None => inl (TicketNotFound ticket)
  | Some targetAngle =>
      match calculateFixedSpinByTicket startRotation ticket m
              (Some (cycleProfile spinCount)) (fixedDraws d) with
      | inl e => inl e
      | inr fixedResult => inr (targetAngle, fixedResult)
      end
  end.

(** spinWheel.  The entry guard returns before anything is read or written. *)
Definition spinWheel (d : SpinDraws) (s : WheelState) : SpinOutcome :=
  if isSpinning s || (length (names s) =? 0)%nat then
    {| completion := ReturnedUndefined; console := []; after := s |}
  else
    let startRotation := finalRotation s in
    let '(currentFixedTicket, modeLog, queue1, count1) := consumeQueue s in
    let '(endRotation, duration, queue2, planLog) :=
      match currentFixedTicket, ticketAngleMap s with
      | Some ticket, Some m =>
          match tryFixedSpin startRotation ticket m count1 d with
          | inr (targetAngle, r) =>
              (endRotation r, duration r, queue1,
               [LogFixedSpinByTicket ticket targetAngle (endRotation r) (duration r)
                  (profile r)])
          | inl e =>
              (naturalEndRotation startRotation d, 11000, [], [WarnFixedSpinFailed e])
          end
      | _, _ => (naturalEndRotation startRotation d, 11000, queue1, [])
      end in
    {| completion := ReturnedUndefined;
       console := LogSpinStarted (fixedTicketsQueue s) :: modeLog ++ planLog;
       after :=
         {| names := names s;
            ticketNumbers := ticketNumbers s;
            ticketAngleMap := ticketAngleMap s;
            fixedTicketsQueue := queue2;
            spinCount := count1;
            isSpinning := true;
            finalRotation := finalRotation s;
            animationFrame :=
              Some {| animNames := names s;
                      startRotation := startRotation;
                      animEndRotation := endRotation;
                      animDuration := duration;
                      startTime := now d |};
            isFrozen := false;
            animationCompleted := false;
            winnerProcessed := false;
            winner := winner s |} |}.

(** The easing curve of the animation. *)
Definition ease (t : Q) : Q :=
  let t1 := 0.20 in
  let Y := (3 * (1 - t1)) / (5 * t1 + 3 * (1 - t1)) in
  let x_split := 1 - Y in
  let k := x_split / t1 ^ 3 in
  let A := Y / (1 - t1) ^ 5 in
  if Js.ltb t t1 then k * t ^ 3 else 1 - A * (1 - t) ^ 5.

(** One call of [animate] at clock reading [t]. *)
Definition animate (t : Q) (s : WheelState) : WheelState :=
  match animationFrame s with
  | None => s
  | Some a =>
      if animationCompleted s then
        {| names := names s; ticketNumbers := ticketNumbers s;
           ticketAngleMap := ticketAngleMap s;
           fixedTicketsQueue := fixedTicketsQueue s; spinCount := spinCount s;
           isSpinning := isSpinning s; finalRotation := finalRotation s;
           animationFrame := None;
           isFrozen := isFrozen s; animationCompleted := true;
           winnerProcessed := winnerProcessed s; winner := winner s |}
      else
        let elapsed := t - startTime a in
        let progress := Js.min (elapsed / animDuration a) 1 in
        if Js.ltb progress 1 then
          let current :=
            startRotation a + (animEndRotation a - startRotation a) * ease progress in
          {| names := names s; ticketNumbers := ticketNumbers s;
             ticketAngleMap := ticketAngleMap s;
             fixedTicketsQueue := fixedTicketsQueue s; spinCount := spinCount s;
             isSpinning := isSpinning s; finalRotation := current;
             animationFrame := Some a;
             isFrozen := isFrozen s; animationCompleted := false;
             winnerProcessed := winnerProcessed s; winner := winner s |}
        else
          let settled := negb (winnerProcessed s) in
          let selectedIndex := resolveWinner (animEndRotation a) (length (animNames a)) in
          {| names := names s; ticketNumbers := ticketNumbers s;
             ticketAngleMap := ticketAngleMap s;
             fixedTicketsQueue := fixedTicketsQueue s; spinCount := spinCount s;
             isSpinning := if settled then false else isSpinning s;
             finalRotation := animEndRotation a;
             animationFrame := None;
             isFrozen := true; animationCompleted := true;
             winnerProcessed := if settled then false else winnerProcessed s;
             winner :=
               if settled
               then Some {| winnerIndex := selectedIndex;
                            winnerTicketNumber := ticketNumbers s !! selectedIndex |}
               else winner s |}
  end.

(** [handleCloseWinner] *)
Definition handleCloseWinner (s : WheelState) : WheelState :=
  {| names := names s; ticketNumbers := ticketNumbers s;
     ticketAngleMap := ticketAngleMap s;
     fixedTicketsQueue := fixedTicketsQueue s; spinCount := spinCount s;
     isSpinning := isSpinning s; finalRotation := finalRotation s;
     animationFrame := animationFrame s;
     isFrozen := false; animationCompleted := animationCompleted s;
     winnerProcessed := winnerProcessed s; winner := None |}.

(** What can happen to the component between two list versions. *)
Inductive Action :=
  | RequestSpin (d : SpinDraws)
  | Frame (t : Q)
  | CloseWinner.

Definition step (a : Action) (s : WheelState) : WheelState :=
  match a with
  | RequestSpin d => after (spinWheel d s)
  | Frame t => animate t s
  | CloseWinner => handleCloseWinner s
  end.

(** A spin request is accepted when the entry guard lets it through. *)
Definition accepted (a : Action) (s : WheelState) : bool :=
  match a with
  | RequestSpin _ => negb (isSpinning s || (length (names s) =? 0)%nat)
  | _ => false
  end.

(** Run a sequence of actions; the second component counts accepted spins. *)
Fixpoint run (acts : list Action) (s : WheelState) : WheelState * nat :=
  match acts with
  | [] => (s, O)
  | a :: rest =>
      let '(s', k) := run rest (step a s) in
      (s', if accepted a s then S k else k)
  end.

(** The angle measured from the top of the wheel, where slice 0 starts. *)
Definition fromTop (angle : Q) : Q :=
  if Js.ltb angle 270 then angle + 90 else angle - 270.

(** ** Sample data: eight entries [T1 .. T8] *)

Definition entryOf (ticket : string) : Entry :=
  {| ticketNumber := ticket; label := "Entry " +:+ ticket |}.

Definition eightTickets : list string :=
  ["T1"; "T2"; "T3"; "T4"; "T5"; "T6"; "T7"; "T8"].

Definition eightEntries : list Entry := entryOf <$> eightTickets.

Definition eightMap : TicketAngleMap := buildTicketAngleMap eightEntries.

(** Draws that give a whole number of turns under profile B (6.0) and a zero
    micro offset. *)
Definition plainDraws : FixedDraws :=
  {| uProfile := 0; uDuration := 0.5; uRotations := 0; uMicro := 0.5 |}.

Definition plainSpinDraws : SpinDraws :=
  {| fixedDraws := plainDraws; uSpins := 0; uAngle := 0; now := 0 |}.

(** The wheel at rest on the eight entries with the queue [queue]. *)
Definition idleWheel (queue : list string) : WheelState :=
  {| names := label <$> eightEntries;
     ticketNumbers := eightTickets;
     ticketAngleMap := Some eightMap;
     fixedTicketsQueue := queue;
     spinCount := 0;
     isSpinning := false;
     finalRotation := 0;
     animationFrame := None;
     isFrozen := false;
     animationCompleted := false;
     winnerProcessed := false;
     winner := None |}.

(** ** Pointer colour (components/WheelApp.jsx, getCurrentPointerColor) *)



(** [safeIndex] of getCurrentPointerColor: the slice under the pointer by
    division, not by the loop of the winner block. *)
Definition pointerSafeIndex (finalRotation : Q) (count : nat) : Z :=
  let sliceAngle := 360 / num count in
  let R := normalize finalRotation in
  let pointerAngle := Js.rem (360 - R) 360 in
  let adjustedAngle := Js.rem (pointerAngle + 90) 360 in
  let index := Js.floor (adjustedAngle / sliceAngle) in
  Z.rem index (Z.of_nat count).



(** ** The index-based planner (lib/wheel-physics.ts) *)

Module WheelPhysics.

Inductive RotationError :=
  | NoEntries
  | InvalidWinnerIndex (index : Z).

(** The two [Math.random()] calls, in order: turn count, micro offset. *)
Record Draws := { uTurns : Q; uOffset : Q }.

Record WinnerRotation := { endRotation : Q; duration : Q }.

(** [((targetSliceCenter % 360) + 360) % 360] for the slice at [index]. *)
Definition normalizedTargetCenter (totalEntries : nat) (targetWinnerIndex : Z) : Q :=
  let sliceAngle := 360 / num totalEntries in
  let targetSliceStart := inject_Z targetWinnerIndex * sliceAngle - 90 in
  let targetSliceCenter := targetSliceStart + sliceAngle / 2 in
  Js.rem (Js.rem targetSliceCenter 360 + 360) 360.

Definition calculateFixedWinnerRotation (currentRotation : Q) (targetWinnerIndex : Z)
    (totalEntries : nat) (d : Draws) : RotationError + WinnerRotation :=
  if (totalEntries =? 0)%nat then inl NoEntries
  else if (targetWinnerIndex <? 0)%Z || (Z.of_nat totalEntries <=? targetWinnerIndex)%Z
  then inl (InvalidWinnerIndex targetWinnerIndex)
  else
    let minRotations := 5 in
    let maxRotations := 8 in
    let rotations := minRotations + uTurns d * (maxRotations - minRotations) in
    let microOffset := (uOffset d - 0.5) * 4 in
    let totalRotation :=
      rotations * 360
      + angleToTarget (normalizedTargetCenter totalEntries targetWinnerIndex) currentRotation
      + microOffset in
    inr {| endRotation := currentRotation + totalRotation; duration := 11000 |}.

Inductive SpinMode := ModeRandom | ModeFixed.

Record SpinSequenceConfig := {
  mode : SpinMode;
  fixedWinnerIndex : option Z
}.

(** The loop of generateMixedSequence from [fixedIndex] on.
    [fixedWinnerIndices] is optional; a missing index is replaced by 0. *)
Fixpoint generateFrom (sequence : list SpinMode) (fixedWinnerIndices : option (list Z))
    (fixedIndex : nat) : list SpinSequenceConfig :=
  match sequence with
  | [] => []
  | ModeFixed :: rest =>
      let winnerIndex :=
        match fixedWinnerIndices with
        | Some indices => default 0%Z (indices !! fixedIndex)
        | None => 0%Z
        end in
      {| mode := ModeFixed; fixedWinnerIndex := Some winnerIndex |}
      :: generateFrom rest fixedWinnerIndices (S fixedIndex)
  | ModeRandom :: rest =>
      {| mode := ModeRandom; fixedWinnerIndex := None |}
      :: generateFrom rest fixedWinnerIndices fixedIndex
  end.

(** [totalEntries] is a parameter the function never reads. *)
Definition generateMixedSequence (sequence : list SpinMode) (totalEntries : nat)
    (fixedWinnerIndices : option (list Z)) : list SpinSequenceConfig :=
  generateFrom sequence fixedWinnerIndices 0.

(** The fixed spins of a sequence. *)
Definition isFixed (m : SpinMode) : bool :=
  match m with ModeFixed => true | ModeRandom => false end.

End WheelPhysics.

(** ** Combining uploaded lists (lib/excel-parser.ts, combineParticipants) *)

Module Excel.

Record Participant := {
  firstName : string;
  lastName : string;
  ticketNumber : string
}.

(** The body of the inner loop: skip a ticket number already seen, else
    record it and push the participant. *)
Definition addParticipant (st : list Participant * gset string) (participant : Participant)
    : list Participant * gset string :=
  let '(combined, ticketNumbers) := st in
  if bool_decide (ticketNumber participant ∈ ticketNumbers) then st
  else (combined ++ [participant], {[ticketNumber participant]} ∪ ticketNumbers).

(** The first pass over all arrays. *)
Definition collectUnique (participantArrays : list (list Participant))
    : list Participant * gset string :=
  foldl (fun st participants => foldl addParticipant st participants)
        ([], ∅) participantArrays.

(** [[combined[i], combined[j]] = [combined[j], combined[i]]].  Both positions
    exist whenever [j <= i < length]; otherwise the list is left alone. *)
Definition swap (combined : list Participant) (i j : nat) : list Participant :=
  match combined !! i, combined !! j with
  | Some ci, Some cj => <[j := ci]> (<[i := cj]> combined)
  | _, _ => combined
  end.

(** The Fisher-Yates loop [for (i = ...; i > 0; i--)], entered at [i];
    [draws i] is the value of [Math.random()] in the iteration with index
    [i]. *)
Fixpoint shuffleFrom (draws : nat -> Q) (i : nat) (combined : list Participant)
    : list Participant :=
  match i with
  | O => combined
  | S i' =>
      let j := Z.to_nat (Js.floor (draws i * num (i + 1))) in
      shuffleFrom draws i' (swap combined i j)
  end.

Definition combineParticipants (draws : nat -> Q)
    (participantArrays : list (list Participant)) : list Participant :=
  let combined := fst (collectUnique participantArrays) in
  if (3000 <? length combined)%nat
  then take 3000 (shuffleFrom draws (length combined - 1) combined)
  else combined.

End Excel.

(** [p] is the first participant of [l] with its ticket number. *)
Definition firstOccurrence (l : list Excel.Participant) (p : Excel.Participant) : Prop :=
  exists i, l !! i = Some p /\
    forall j q, (j < i)%nat -> l !! j = Some q ->
      Excel.ticketNumber q <> Excel.ticketNumber p.

(** What the first pass has collected after the participants [pre]: the
    seen ticket numbers, and the first participant of each. *)
Definition collected (pre : list Excel.Participant)
    (st : list Excel.Participant * gset string) : Prop :=
  st.2 = list_to_set (Excel.ticketNumber <$> pre) /\
  NoDup (Excel.ticketNumber <$> st.1) /\
  (forall p, p ∈ st.1 <-> firstOccurrence pre p) /\
  (forall t, t ∈ Excel.ticketNumber <$> st.1 <-> t ∈ Excel.ticketNumber <$> pre) /\
  st.1 `sublist_of` pre.

(** ** The other operations of the list storage (lib/wheel-storage.ts) *)

Module StorageOps.
Import Storage.

Section Replace.

(** [String.prototype.trim], left abstract. *)
Variable trim : string -> string.

Definition entryOfParticipant (participant : Excel.Participant) : WheelEntry :=
  {| ticketNumber := Excel.ticketNumber participant;
     label := trim (Excel.firstName participant +:+ " " +:+ Excel.lastName participant);
     firstName := Excel.firstName participant;
     lastName := Excel.lastName participant |}.

(** replaceWheelList: new entries, the fixed ticket and the queue carried
    over as they are. *)
Definition replaceWheelList (participants : list Excel.Participant) (now : Z)
    (snapshot : WheelListSnapshot) : WheelListSnapshot :=
  {| entries := entryOfParticipant <$> participants;
     fixedTicketNumber := fixedTicketNumber snapshot;
     fixedTicketsQueue := fixedTicketsQueue snapshot;
     lastUpdated := now |}.

End Replace.

(** [currentListSnapshot.entries.some(e => e.ticketNumber === ticketNumber)] *)
Definition validateTicketNumber (snapshot : WheelListSnapshot) (ticket : string) : bool :=
  existsb (fun e => String.eqb (ticketNumber e) ticket) (entries snapshot).

(** [currentListSnapshot.entries.find(e => e.ticketNumber === ticketNumber)] *)
Definition getEntryByTicket (snapshot : WheelListSnapshot) (ticket : string)
    : option WheelEntry :=
  List.find (fun e => String.eqb (ticketNumber e) ticket) (entries snapshot).

(** setFixedTicketNumber, with the thrown error as first component. *)
Definition setFixedTicketNumber (ticket : option string) (now : Z)
    (snapshot : WheelListSnapshot) : option QueueError * WheelListSnapshot :=
  let updated :=
    {| entries := entries snapshot;
       fixedTicketNumber := ticket;
       fixedTicketsQueue := fixedTicketsQueue snapshot;
       lastUpdated := now |} in
  match ticket with
  | Some t =>
      if negb (existsb (fun e => String.eqb (ticketNumber e) t) (entries snapshot))
      then (Some (UnknownTicket t), snapshot)
      else (None, updated)
  | None => (None, updated)
  end.

Definition clearFixedTicketsQueue (now : Z) (snapshot : WheelListSnapshot)
    : WheelListSnapshot :=
  {| entries := entries snapshot;
     fixedTicketNumber := fixedTicketNumber snapshot;
     fixedTicketsQueue := [];
     lastUpdated := now |}.

Definition clearFixedTicket (now : Z) (snapshot : WheelListSnapshot)
    : WheelListSnapshot :=
  {| entries := entries snapshot;
     fixedTicketNumber := None;
     fixedTicketsQueue := fixedTicketsQueue snapshot;
     lastUpdated := now |}.

(** getNextFixedTicket: the head, left in place. *)
Definition getNextFixedTicket (snapshot : WheelListSnapshot) : option string :=
  match fixedTicketsQueue snapshot with
  | [] => None
  | ticket :: _ => Some ticket
  end.

End StorageOps.

(** ** Loading a list into the wheel (components/WheelApp.jsx, the
       [stableNames] memo) *)

Record WheelProps := {
  initialNames : list string;
  initialTicketNumbers : list string;
  fixedTicketNumberProp : option string;
  fixedTicketsQueueProp : list string
}.

(** The refs the memo keeps for itself. *)
Record MemoRefs := {
  isInitialized : bool;
  isInitialMount : bool;
  previousNames : list string;
  previousTicketNumbers : list string
}.

(** [previous.some((x, idx) => x !== current[idx])], from position [idx]. *)
Fixpoint someDiffers (idx : nat) (previous current : list string) : bool :=
  match previous with
  | [] => false
  | x :: rest =>
      match current !! idx with
      | Some y => negb (String.eqb x y)
      | None => true
      end || someDiffers (S idx) rest current
  end.

(** [previous.length !== current.length || previous.some(...)] *)
Definition listChanged (previous current : list string) : bool :=
  negb (length previous =? length current)%nat || someDiffers 0 previous current.

(** [initialNames.map((name, idx) => ({ ticketNumber: initialTicketNumbers[idx],
    label: name }))]; only evaluated when both lists have the same length. *)
Definition entriesOfProps (props : WheelProps) : list Entry :=
  zip_with (fun name ticket => {| ticketNumber := ticket; label := name |})
           (initialNames props) (initialTicketNumbers props).

(** The queue the memo installs: the queue prop when it is not empty, else
    the legacy single ticket when it is truthy, else nothing. *)
Definition queueOfProps (props : WheelProps) : list string :=
  match fixedTicketsQueueProp props with
  | _ :: _ => fixedTicketsQueueProp props
  | [] =>
      match fixedTicketNumberProp props with
      | Some ticket => if String.eqb ticket "" then [] else [ticket]
      | None => []
      end
  end.

(** The body of the memo: the names it returns, its refs and the refs of the
    spin ([ticketAngleMapRef], [fixedTicketsQueueRef], [spinCountRef]). *)
Definition stableNamesMemo (props : WheelProps) (refs : MemoRefs) (s : WheelState)
    : list string * MemoRefs * WheelState :=
  if isSpinning s && isInitialized refs then (previousNames refs, refs, s)
  else
    let namesChanged := listChanged (previousNames refs) (initialNames props) in
    let ticketNumbersChanged :=
      listChanged (previousTicketNumbers refs) (initialTicketNumbers props) in
    if (namesChanged || ticketNumbersChanged || isInitialMount refs)
       && negb (isSpinning s)
    then
      (initialNames props,
       {| isInitialized := true;
          isInitialMount := false;
          previousNames := initialNames props;
          previousTicketNumbers := initialTicketNumbers props |},
       {| names := names s;
          ticketNumbers := ticketNumbers s;
          ticketAngleMap :=
            if (0 <? length (initialNames props))%nat
               && (length (initialTicketNumbers props) =? length (initialNames props))%nat
            then Some (buildTicketAngleMap (entriesOfProps props))
            else ticketAngleMap s;
          fixedTicketsQueue := queueOfProps props;
          spinCount := 0;
          isSpinning := isSpinning s;
          finalRotation := finalRotation s;
          animationFrame := animationFrame s;
          isFrozen := isFrozen s;
          animationCompleted := animationCompleted s;
          winnerProcessed := winnerProcessed s;
          winner := winner s |})
    else (previousNames refs, refs, s).

(** Whole turns are congruent angles. *)
Definition cong360 (x y : Q) : Prop := exists k : Z, x == y + 360 * inject_Z k.

(** The wheel before any list was loaded. *)
Definition emptyWheel : WheelState :=
  {| names := [];
     ticketNumbers := [];
     ticketAngleMap := None;
     fixedTicketsQueue := [];
     spinCount := 0;
     isSpinning := false;
     finalRotation := 0;
     animationFrame := None;
     isFrozen := false;
     animationCompleted := false;
     winnerProcessed := false;
     winner := None |}.

(** A call reports to its caller by throwing or by writing to the console;
    spinWheel has no return value in any branch. *)
Definition reportedToCaller (out : SpinOutcome) : Prop :=
  (exists error, completion out = Thrown error) \/ console out <> [].

(** The plan a natural spin schedules. *)
Definition naturalAnimation (d : SpinDraws) (s : WheelState) : Animation :=
  {| animNames := names s;
     startRotation := finalRotation s;
     animEndRotation := naturalEndRotation (finalRotation s) d;
     animDuration := 11000;
     startTime := now d |}.

Module StorageSample.
Import Storage.

Definition wheelEntryOf (ticket : string) : WheelEntry :=
  {| ticketNumber := ticket; label := "Entry " +:+ ticket;
     firstName := "Entry"; lastName := ticket |}.

Definition snapshot0 : WheelListSnapshot :=
  {| entries := wheelEntryOf <$> eightTickets;
     fixedTicketNumber := None;
     fixedTicketsQueue := ["T1"];
     lastUpdated := 0 |}.

End StorageSample.

(** * Proofs *)

(** ** Truncated remainder by 360 *)

(** Linear arithmetic over [Q] once the integer literals are exposed. *)
Ltac qlra :=
  change (inject_Z 0) with 0 in *; change (inject_Z 1) with 1 in *; lra.

Section Remainder.

Lemma floor_unique (y : Q) (k : Z) :
  inject_Z k <= y -> y < inject_Z k + 1 -> Qfloor y = k.
Proof.
  intros Hlo Hhi.
  pose proof (Qfloor_le y) as Hf1.
  pose proof (Qlt_floor y) as Hf2.
  rewrite inject_Z_plus in Hf2. change (inject_Z 1) with 1 in Hf2.
  assert (H1 : inject_Z k < inject_Z (Qfloor y) + 1) by lra.
  assert (H2 : inject_Z (Qfloor y) < inject_Z k + 1) by lra.
  change 1 with (inject_Z 1) in H1, H2.
  rewrite <- inject_Z_plus in H1, H2.
  rewrite <- Zlt_Qlt in H1, H2. lia.
Qed.

Lemma trunc_nonneg (y : Q) : 0 <= y -> Js.trunc y = Qfloor y.
Proof.
  intros Hy. unfold Js.trunc. destruct y as [n d]; simpl.
  apply Z.quot_div_nonneg; [| lia].
  unfold Qle in Hy; simpl in Hy. lia.
Qed.

Lemma trunc_opp (y : Q) : Js.trunc (- y) = (- Js.trunc y)%Z.
Proof.
  unfold Js.trunc. destruct y as [n d]; simpl. apply Z.quot_opp_l. lia.
Qed.

Lemma trunc_nonneg_unique (y : Q) (k : Z) :
  0 <= y -> inject_Z k <= y -> y < inject_Z k + 1 -> Js.trunc y = k.
Proof.
  intros Hy Hlo Hhi. rewrite trunc_nonneg by exact Hy. now apply floor_unique.
Qed.


(** A non-negative [x] in the [k]-th window of width 360. *)
Lemma rem360_window (x : Q) (k : Z) :
  0 <= x -> 360 * inject_Z k <= x -> x < 360 * inject_Z k + 360 ->
  Js.rem x 360 == x - 360 * inject_Z k.
Proof.
  intros Hx Hlo Hhi. unfold Js.rem.
  assert (Hy : x == 360 * (x / 360)) by (field; discriminate).
  rewrite (trunc_nonneg_unique (x / 360) k); [reflexivity | lra ..].
Qed.

Lemma rem360_small (x : Q) : 0 <= x -> x < 360 -> Js.rem x 360 == x.
Proof.
  intros H0 H1. rewrite (rem360_window x 0); qlra.
Qed.

Lemma rem360_second (x : Q) : 360 <= x -> x < 720 -> Js.rem x 360 == x - 360.
Proof.
  intros H0 H1. rewrite (rem360_window x 1); qlra.
Qed.

(** The remainder keeps the sign of the dividend and differs from it by a
    whole number of turns. *)
Lemma rem360_spec (x : Q) :
  exists k : Z,
    Js.rem x 360 == x - 360 * inject_Z k /\
    ((0 <= x /\ 0 <= Js.rem x 360 /\ Js.rem x 360 < 360) \/
     (x <= 0 /\ -360 < Js.rem x 360 /\ Js.rem x 360 <= 0)).
Proof.
  exists (Js.trunc (x / 360)). split; [reflexivity |].
  assert (Hy : x == 360 * (x / 360)) by (field; discriminate).
  unfold Js.rem. set (y := x / 360) in *.
  destruct (Qlt_le_dec x 0) as [Hneg | Hpos].
  - right.
    assert (Hy0 : y <= 0) by lra.
    pose proof (Qfloor_le (- y)) as Hf1.
    pose proof (Qlt_floor (- y)) as Hf2.
    rewrite inject_Z_plus in Hf2.
    assert (Ht : Js.trunc y = (- Qfloor (- y))%Z).
    { rewrite <- (trunc_nonneg (- y)) by lra. rewrite trunc_opp. lia. }
    rewrite Ht, inject_Z_opp. change (inject_Z 1) with 1 in Hf2. lra.
  - left.
    assert (Hy0 : 0 <= y) by lra.
    pose proof (Qfloor_le y) as Hf1.
    pose proof (Qlt_floor y) as Hf2.
    rewrite inject_Z_plus in Hf2.
    rewrite trunc_nonneg by exact Hy0. change (inject_Z 1) with 1 in Hf2. lra.
Qed.

Lemma normalize_range (x : Q) : 0 <= normalize x /\ normalize x < 360.
Proof.
  unfold normalize.
  destruct (rem360_spec x) as [k [_ [[_ [H1 H2]] | [_ [H1 H2]]]]].
  - rewrite rem360_second by lra. lra.
  - destruct (Qlt_le_dec (Js.rem x 360 + 360) 360) as [Hlt | Hge].
    + rewrite rem360_small by lra. lra.
    + assert (Heq : Js.rem x 360 + 360 == 360) by lra.
      rewrite (rem360_window _ 1); qlra.
Qed.

Lemma pointer_range (frozenRot : Q) :
  0 <= pointerAngleInOriginal frozenRot /\ pointerAngleInOriginal frozenRot < 360.
Proof.
  unfold pointerAngleInOriginal.
  destruct (normalize_range frozenRot) as [H1 H2].
  destruct (Qlt_le_dec 0 (normalize frozenRot)) as [Hpos | Hzero].
  - rewrite rem360_small by lra. lra.
  - rewrite (rem360_window _ 1); qlra.
Qed.

End Remainder.

(** ** The slices partition the circle *)

Section Comparisons.

Lemma ltb_lt (x y : Q) : Js.ltb x y = true <-> x < y.
Proof.
  unfold Js.ltb. rewrite negb_true_iff, <- not_true_iff_false, Qle_bool_iff.
  split; [apply Qnot_le_lt | apply Qlt_not_le].
Qed.

Lemma ltb_ge (x y : Q) : Js.ltb x y = false <-> y <= x.
Proof. unfold Js.ltb. rewrite negb_false_iff. apply Qle_bool_iff. Qed.

Lemma geb_le (x y : Q) : Js.geb x y = true <-> y <= x.
Proof. apply Qle_bool_iff. Qed.

Lemma geb_lt (x y : Q) : Js.geb x y = false <-> x < y.
Proof.
  unfold Js.geb. rewrite <- not_true_iff_false, Qle_bool_iff.
  split; [apply Qnot_le_lt | apply Qlt_not_le].
Qed.

End Comparisons.

Ltac ltb_case x y H :=
  destruct (Js.ltb x y) eqn:H; [apply ltb_lt in H | apply ltb_ge in H].

Section Partition.

Lemma num_le (i j : nat) : (i <= j)%nat -> num i <= num j.
Proof. intros H. unfold num. rewrite <- Zle_Qle. lia. Qed.

Lemma num_S (i : nat) : num (S i) == num i + 1.
Proof.
  unfold num. rewrite Nat2Z.inj_succ, <- Z.add_1_r, inject_Z_plus. reflexivity.
Qed.

Lemma num_nonneg (i : nat) : 0 <= num i.
Proof. change 0 with (num 0). apply num_le. lia. Qed.

Variable count : nat.
Hypothesis count_pos : (0 < count)%nat.

Let w := sliceAngleOf count.

Lemma num_count_pos : 1 <= num count.
Proof. change 1 with (num 1). apply num_le. lia. Qed.

Lemma width_turn : num count * w == 360.
Proof.
  subst w. unfold sliceAngleOf. pose proof num_count_pos. field. lra.
Qed.

Lemma width_pos : 0 < w.
Proof.
  pose proof width_turn as Ht. pose proof num_count_pos as Hc.
  destruct (Qlt_le_dec 0 w) as [H | H]; [exact H | exfalso].
  assert (Hm : 0 <= num count * (- w)) by (apply Qmult_le_0_compat; lra).
  lra.
Qed.

Lemma width_le : w <= 360.
Proof.
  pose proof width_turn as Ht. pose proof num_count_pos as Hc.
  pose proof width_pos as Hw.
  assert (Hm : 0 <= (num count - 1) * w) by (apply Qmult_le_0_compat; lra).
  lra.
Qed.

Lemma slice_bounds (i : nat) :
  (i < count)%nat -> 0 <= num i * w /\ (num i + 1) * w <= 360.
Proof.
  intros Hi. pose proof width_turn as Ht. pose proof width_pos as Hw.
  pose proof (num_nonneg i) as H0.
  assert (Hle : num (S i) <= num count) by (apply num_le; lia).
  rewrite num_S in Hle.
  assert (Hm : 0 <= (num count - (num i + 1)) * w) by (apply Qmult_le_0_compat; lra).
  assert (Hm0 : 0 <= num i * w) by (apply Qmult_le_0_compat; lra).
  split; lra.
Qed.

(** The two boundaries of slice [i], without the remainder. *)
Lemma sliceStart_cases (i : nat) :
  (i < count)%nat ->
  (num i * w < 90 /\ sliceStart w i == num i * w + 270) \/
  (90 <= num i * w /\ sliceStart w i == num i * w - 90).
Proof.
  intros Hi. destruct (slice_bounds i Hi) as [H0 H1].
  pose proof width_pos as Hw. unfold sliceStart.
  destruct (Qlt_le_dec (num i * w) 90) as [Hlt | Hge]; [left | right]; split; try lra.
  - rewrite rem360_small; lra.
  - rewrite rem360_second; lra.
Qed.

Lemma sliceEnd_cases (i : nat) :
  (i < count)%nat ->
  ((num i + 1) * w < 90 /\ sliceEnd w i == (num i + 1) * w + 270) \/
  (90 <= (num i + 1) * w /\ sliceEnd w i == (num i + 1) * w - 90).
Proof.
  intros Hi. destruct (slice_bounds i Hi) as [H0 H1].
  pose proof width_pos as Hw. unfold sliceEnd.
  destruct (Qlt_le_dec ((num i + 1) * w) 90) as [Hlt | Hge]; [left | right]; split; try lra.
  - rewrite rem360_small; lra.
  - rewrite rem360_second; lra.
Qed.

Lemma fromTop_range (angle : Q) :
  0 <= angle -> angle < 360 -> 0 <= fromTop angle /\ fromTop angle < 360.
Proof.
  intros H0 H1. unfold fromTop.
  ltb_case angle 270 E; lra.
Qed.

(** The test of the loop body says that the angle, measured from the top,
    lies in [[i*w, (i+1)*w)]. *)
Lemma inSlice_iff (i : nat) (angle : Q) :
  (i < count)%nat -> 0 <= angle -> angle < 360 ->
  inSlice w i angle = true <->
  num i * w <= fromTop angle /\ fromTop angle < (num i + 1) * w.
Proof.
  intros Hi Ha0 Ha1.
  destruct (slice_bounds i Hi) as [H0 H1].
  pose proof width_pos as Hw. pose proof width_le as Hw'.
  unfold inSlice, fromTop.
  destruct (sliceStart_cases i Hi) as [[Hs Hs'] | [Hs Hs']];
  destruct (sliceEnd_cases i Hi) as [[He He'] | [He He']];
  ltb_case (sliceStart w i) (sliceEnd w i) Ecmp; try (exfalso; lra);
  ltb_case angle 270 E270;
  rewrite ?andb_true_iff, ?orb_true_iff, ?geb_le, ?ltb_lt;
  (split; [intros; lra | intros; try lra; solve [left; lra | right; lra]]).
Qed.

Lemma slice_of_angle_exists (b : Q) :
  0 <= b -> b < 360 ->
  exists i, (i < count)%nat /\ num i * w <= b /\ b < (num i + 1) * w.
Proof.
  intros Hb0 Hb1. pose proof width_pos as Hw. pose proof width_turn as Ht.
  assert (Hy : b == (b / w) * w) by (field; lra).
  set (y := b / w) in *.
  assert (Hy0 : 0 <= y).
  { destruct (Qlt_le_dec y 0) as [Hn | Hp]; [exfalso | exact Hp].
    assert (0 <= (- y) * w) by (apply Qmult_le_0_compat; lra).
    assert (Hz : y * w == 0) by lra.
    apply Qmult_integral in Hz. lra. }
  pose proof (Qfloor_le y) as Hf1. pose proof (Qlt_floor y) as Hf2.
  rewrite inject_Z_plus in Hf2. change (inject_Z 1) with 1 in Hf2.
  assert (Hk : (0 <= Qfloor y)%Z).
  { change 0%Z with (Qfloor 0). apply Qfloor_resp_le. exact Hy0. }
  set (k := Qfloor y) in *.
  assert (Hnum : num (Z.to_nat k) == inject_Z k).
  { unfold num. rewrite Z2Nat.id by exact Hk. reflexivity. }
  assert (Hlo : 0 <= (y - inject_Z k) * w) by (apply Qmult_le_0_compat; lra).
  assert (Hhi : 0 < (inject_Z k + 1 - y) * w) by (apply Qmult_lt_0_compat; lra).
  exists (Z.to_nat k). rewrite Hnum. repeat split; try lra.
  destruct (Nat.lt_ge_cases (Z.to_nat k) count) as [Hlt | Hge]; [exact Hlt | exfalso].
  apply num_le in Hge. rewrite Hnum in Hge.
  assert (0 <= (inject_Z k - num count) * w) by (apply Qmult_le_0_compat; lra).
  lra.
Qed.

Lemma slice_of_angle_unique (i j : nat) (b : Q) :
  num i * w <= b -> b < (num i + 1) * w ->
  num j * w <= b -> b < (num j + 1) * w -> i = j.
Proof.
  intros Hi0 Hi1 Hj0 Hj1. pose proof width_pos as Hw.
  assert (Hord : forall a c : nat, (a < c)%nat -> (num a + 1) * w <= num c * w).
  { intros a c Hac.
    assert (Hle : num (S a) <= num c) by (apply num_le; lia).
    rewrite num_S in Hle.
    assert (0 <= (num c - (num a + 1)) * w) by (apply Qmult_le_0_compat; lra).
    lra. }
  destruct (Nat.lt_trichotomy i j) as [Hlt | [Heq | Hgt]]; [exfalso | exact Heq | exfalso].
  - pose proof (Hord i j Hlt). lra.
  - pose proof (Hord j i Hgt). lra.
Qed.

(** The loop returns the first index whose test succeeds. *)
Lemma findSlice_first (pointer : Q) (remaining i0 i : nat) :
  (i0 <= i)%nat -> (i < i0 + remaining)%nat ->
  (forall j, (i0 <= j)%nat -> (j < i)%nat -> inSlice w j pointer = false) ->
  inSlice w i pointer = true ->
  findSlice w pointer i0 remaining = Some i.
Proof.
  revert i0. induction remaining as [| r IH]; intros i0 Hle Hlt Hbefore Hin.
  - lia.
  - simpl. destruct (Nat.eq_dec i0 i) as [-> | Hne].
    + now rewrite Hin.
    + rewrite (Hbefore i0) by lia. apply IH; [lia | lia | | exact Hin].
      intros j Hj1 Hj2. apply Hbefore; lia.
Qed.

Lemma inSlice_unique (i j : nat) (angle : Q) :
  (i < count)%nat -> (j < count)%nat -> 0 <= angle -> angle < 360 ->
  inSlice w i angle = true -> inSlice w j angle = true -> i = j.
Proof.
  intros Hi Hj H0 H1 Hini Hinj.
  apply inSlice_iff in Hini; [| assumption ..].
  apply inSlice_iff in Hinj; [| assumption ..].
  destruct Hini, Hinj. eapply slice_of_angle_unique; eassumption.
Qed.

Lemma findSlice_found (angle : Q) :
  0 <= angle -> angle < 360 ->
  exists i, (i < count)%nat /\ inSlice w i angle = true /\
            findSlice w angle 0 count = Some i.
Proof.
  intros H0 H1.
  destruct (fromTop_range angle H0 H1) as [Hb0 Hb1].
  destruct (slice_of_angle_exists (fromTop angle) Hb0 Hb1) as [i [Hi [Hlo Hhi]]].
  assert (Hin : inSlice w i angle = true) by (apply inSlice_iff; auto).
  exists i. repeat split; [exact Hi | exact Hin |].
  apply findSlice_first; [lia | lia | | exact Hin].
  intros j _ Hj. destruct (inSlice w j angle) eqn:E; [exfalso | reflexivity].
  assert (j = i) by (apply (inSlice_unique j i angle); auto; lia). lia.
Qed.





End Partition.



(** ** The micro offset *)

Section MicroOffset.

Lemma min_le_r (x y : Q) : Js.min x y <= y.
Proof.
  unfold Js.min. destruct (Qle_bool x y) eqn:E.
  - apply Qle_bool_iff in E. exact E.
  - apply Qle_refl.
Qed.

Lemma min_nonneg (x y : Q) : 0 <= x -> 0 <= y -> 0 <= Js.min x y.
Proof. intros Hx Hy. unfold Js.min. destruct (Qle_bool x y); assumption. Qed.

Lemma baseMicroOffsetRange_pos (p : RotationProfile) : 0 <= baseMicroOffsetRange p.
Proof. destruct p; unfold baseMicroOffsetRange; lra. Qed.

Lemma maxSafeOffset_eq (n : nat) : maxSafeOffset n == 0.3 * (360 / num n).
Proof. unfold maxSafeOffset. ring. Qed.

Lemma maxSafeOffset_pos (n : nat) : (1 <= n)%nat -> 0 < maxSafeOffset n.
Proof.
  intros Hn. pose proof (width_pos n Hn) as Hw. unfold sliceAngleOf in Hw.
  unfold maxSafeOffset. lra.
Qed.

(** Half the adaptive range bounds the offset. *)
Lemma microOffset_half_range (p : RotationProfile) (n : nat) (u : Q) :
  (1 <= n)%nat -> unit_draw u ->
  Qabs (microOffset p n u) <= 0.5 * adaptiveMicroOffsetRange p n.
Proof.
  intros Hn [Hu0 Hu1]. unfold microOffset.
  pose proof (maxSafeOffset_pos n Hn) as Hs.
  assert (Hr : 0 <= adaptiveMicroOffsetRange p n).
  { apply min_nonneg; [apply baseMicroOffsetRange_pos | lra]. }
  set (R := adaptiveMicroOffsetRange p n) in *.
  assert (H1 : 0 <= (1 - u) * R) by (apply Qmult_le_0_compat; lra).
  assert (H2 : 0 <= u * R) by (apply Qmult_le_0_compat; lra).
  apply Qabs_Qle_condition. split; lra.
Qed.

Lemma microOffset_bound (p : RotationProfile) (n : nat) (u : Q) :
  (1 <= n)%nat -> unit_draw u ->
  Qabs (microOffset p n u) <= 0.3 * (360 / num n).
Proof.
  intros Hn Hu.
  pose proof (microOffset_half_range p n u Hn Hu) as Hh.
  pose proof (min_le_r (baseMicroOffsetRange p) (maxSafeOffset n)) as Hm.
  pose proof (maxSafeOffset_pos n Hn) as Hs.
  pose proof (maxSafeOffset_eq n) as He.
  fold (adaptiveMicroOffsetRange p n) in Hm. lra.
Qed.

End MicroOffset.

(** What calculateFixedSpinByTicket returns for a ticket of the map. *)
Lemma calculateFixedSpinByTicket_found (currentRotation : Q) (ticket : string)
    (m : TicketAngleMap) (profile0 : option RotationProfile) (d : FixedDraws)
    (r : FixedSpinResult) :
  calculateFixedSpinByTicket currentRotation ticket m profile0 d = inr r ->
  exists targetAngle,
    ticketToAngle m !! ticket = Some targetAngle /\
    (1 <= size (ticketToAngle m))%nat /\
    profile r = selectProfile profile0 (uProfile d) /\
    duration r = profileDuration (profile r) (uDuration d) /\
    endRotation r =
      currentRotation +
      ((minRotations (profile r)
        + uRotations d * (maxRotations (profile r) - minRotations (profile r))) * 360
       + angleToTarget targetAngle currentRotation
       + microOffset (profile r) (size (ticketToAngle m)) (uMicro d)).
Proof.
  unfold calculateFixedSpinByTicket.
  destruct (ticketToAngle m !! ticket) as [targetAngle |] eqn:Hget; [| discriminate].
  intros [= <-]. exists targetAngle. simpl. repeat split.
  destruct (decide (size (ticketToAngle m) = 0%nat)) as [Hz | Hnz]; [| lia].
  apply map_size_empty_inv in Hz. rewrite Hz, lookup_empty in Hget. discriminate.
Qed.

(** C4.  Adaptive micro-offset clamp.  Whenever calculateFixedSpinByTicket
    returns, for any profile (passed or drawn) and any draw, its end rotation
    is the current rotation plus turns, angle to target and a micro offset
    computed from N = the size of the angle map, N >= 1, and that offset is at
    most 0.3 * (360/N) in absolute value; for N = 500 it is at most 0.216. *)
Theorem micro_offset_clamp (currentRotation : Q) (ticket : string)
    (m : TicketAngleMap) (profile0 : option RotationProfile) (d : FixedDraws)
    (r : FixedSpinResult) :
  unit_draw (uMicro d) ->
  calculateFixedSpinByTicket currentRotation ticket m profile0 d = inr r ->
  let N := size (ticketToAngle m) in
  exists targetAngle turns offset,
    ticketToAngle m !! ticket = Some targetAngle /\
    (1 <= N)%nat /\
    offset = microOffset (profile r) N (uMicro d) /\
    endRotation r =
      currentRotation + (turns * 360 + angleToTarget targetAngle currentRotation + offset) /\
    Qabs offset <= 0.3 * (360 / num N) /\
    (N = 500%nat -> Qabs offset <= 0.216).
Proof.
  intros Hu Hcalc N.
  destruct (calculateFixedSpinByTicket_found _ _ _ _ _ _ Hcalc)
    as [targetAngle [Hget [Hsize [_ [_ Hend]]]]].
  exists targetAngle,
    (minRotations (profile r)
     + uRotations d * (maxRotations (profile r) - minRotations (profile r))),
    (microOffset (profile r) N (uMicro d)).
  pose proof (microOffset_bound (profile r) N (uMicro d) Hsize Hu) as Hb.
  repeat split; try assumption.
  intros HN. rewrite HN in Hb |- *.
  assert (H500 : 0.3 * (360 / num 500) == 0.216) by reflexivity.
  rewrite H500 in Hb. exact Hb.
Qed.

Lemma micro_offset_clamp_witness :
  unit_draw (uMicro plainDraws) /\
  exists r,
    calculateFixedSpinByTicket 0 "T3" eightMap (Some ProfileB) plainDraws = inr r /\
    exists offset,
      offset = microOffset (profile r) (size (ticketToAngle eightMap)) (uMicro plainDraws) /\
      Qabs offset <= 0.3 * (360 / num (size (ticketToAngle eightMap))).
Proof.
  assert (Hu : unit_draw (uMicro plainDraws)) by (split; vm_compute; congruence).
  split; [exact Hu |].
  eexists. split; [vm_compute; reflexivity |].
  destruct (micro_offset_clamp 0 "T3" eightMap (Some ProfileB) plainDraws _ Hu eq_refl)
    as [targetAngle [turns [offset [_ [_ [Hoff [_ [Hbound _]]]]]]]].
  exists offset. split; [exact Hoff | exact Hbound].
Defined.

(** ** The angle index *)

Section AngleIndex.

Implicit Types (entries : list Entry) (m : TicketAngleMap) (t : string).

Lemma buildTicketAngleMap_forEach entries :
  buildTicketAngleMap entries =
  forEachEntry (360 / num (length entries)) 0 entries emptyTicketAngleMap.
Proof. destruct entries; reflexivity. Qed.

(** Entries with other ticket numbers leave a binding alone. *)
Lemma forEachEntry_absent sliceAngle index entries m t :
  (forall e, e ∈ entries -> ticketNumber e <> t) ->
  ticketToAngle (forEachEntry sliceAngle index entries m) !! t = ticketToAngle m !! t /\
  ticketToIndex (forEachEntry sliceAngle index entries m) !! t = ticketToIndex m !! t.
Proof.
  revert index m. induction entries as [| e rest IH]; intros index m Hne; simpl.
  - split; reflexivity.
  - destruct (IH (S index) (setEntry sliceAngle index e m)) as [Ha Hi].
    { intros e' He'. apply Hne. apply elem_of_cons. now right. }
    rewrite Ha, Hi. simpl.
    assert (ticketNumber e <> t) by (apply Hne; apply elem_of_cons; now left).
    split; apply lookup_insert_ne; assumption.
Qed.

(** The last entry carrying a ticket number decides its binding. *)
Lemma forEachEntry_last sliceAngle index entries m k e :
  entries !! k = Some e ->
  (forall j e', (k < j)%nat -> entries !! j = Some e' ->
     ticketNumber e' <> ticketNumber e) ->
  ticketToAngle (forEachEntry sliceAngle index entries m) !! ticketNumber e
    = Some (normalize (segmentCenterAngle sliceAngle (index + k))) /\
  ticketToIndex (forEachEntry sliceAngle index entries m) !! ticketNumber e
    = Some (index + k)%nat.
Proof.
  revert index m k. induction entries as [| e0 rest IH]; intros index m k Hk Hlast.
  - discriminate.
  - destruct k as [| k]; simpl in *.
    + injection Hk as ->.
      destruct (forEachEntry_absent sliceAngle (S index) rest
                  (setEntry sliceAngle index e m) (ticketNumber e)) as [Ha Hi].
      { intros e' He'. apply list_elem_of_lookup in He' as [j Hj].
        apply (Hlast (S j) e'); [lia | exact Hj]. }
      rewrite Ha, Hi, Nat.add_0_r. simpl. split; apply lookup_insert_eq.
    + replace (index + S k)%nat with (S index + k)%nat by lia.
      apply IH; [exact Hk |].
      intros j e' Hj He'. apply (Hlast (S j) e'); [lia | exact He'].
Qed.

Lemma forEachEntry_dom sliceAngle index entries m :
  dom (ticketToAngle (forEachEntry sliceAngle index entries m))
  = list_to_set (ticketNumber <$> entries) ∪ dom (ticketToAngle m).
Proof.
  revert index m. induction entries as [| e rest IH]; intros index m; simpl.
  - symmetry. apply (left_id_L ∅ (∪)).
  - rewrite IH. simpl. rewrite dom_insert_L.
    apply set_eq. intros x. rewrite !elem_of_union. tauto.
Qed.

(** [ticketToAngle.size] counts the distinct ticket numbers. *)
Lemma buildTicketAngleMap_size entries :
  size (ticketToAngle (buildTicketAngleMap entries))
  = size (list_to_set (ticketNumber <$> entries) : gset string).
Proof.
  rewrite buildTicketAngleMap_forEach, <- size_dom, forEachEntry_dom.
  simpl. rewrite dom_empty_L. f_equal. apply (right_id_L ∅ (∪)).
Qed.

Lemma distinct_count (l : list string) :
  (NoDup l /\ size (list_to_set l : gset string) = length l) \/
  (~ NoDup l /\ (size (list_to_set l : gset string) < length l)%nat).
Proof.
  induction l as [| x l IH]; simpl.
  - left. split; [apply NoDup_nil_2 | reflexivity].
  - destruct (decide (x ∈ l)) as [Hin | Hnin].
    + right. split.
      * intros Hnd. apply NoDup_cons in Hnd as [Hx _]. contradiction.
      * assert (Heq : ({[x]} ∪ list_to_set l : gset string) = list_to_set l).
        { apply subseteq_union_1_L, singleton_subseteq_l, elem_of_list_to_set, Hin. }
        rewrite Heq. destruct IH as [[_ H] | [_ H]]; lia.
    + assert (Hsz : size ({[x]} ∪ list_to_set l : gset string)
                    = S (size (list_to_set l : gset string))).
      { rewrite size_union, size_singleton; [reflexivity |].
        apply disjoint_singleton_l. rewrite elem_of_list_to_set. exact Hnin. }
      rewrite Hsz. destruct IH as [[Hnd H] | [Hnd H]].
      * left. split; [apply NoDup_cons; auto | lia].
      * right. split; [| lia].
        intros Hnd'. apply NoDup_cons in Hnd' as [_ Hnd']. contradiction.
Qed.

End AngleIndex.


Section LastOccurrence.

Implicit Types (entries : list Entry) (t : string).

(** Above any occurrence of a ticket number there is a last one. *)
Lemma last_occurrence entries i e :
  entries !! i = Some e ->
  exists k ek, (i <= k)%nat /\ entries !! k = Some ek /\
    ticketNumber ek = ticketNumber e /\
    forall k' ek', (k < k')%nat -> entries !! k' = Some ek' ->
      ticketNumber ek' <> ticketNumber e.
Proof.
  revert i e. induction entries as [| e0 rest IH]; intros i e Hi; [discriminate |].
  assert (Hshift : forall i0 e1, rest !! i0 = Some e1 ->
            ticketNumber e1 = ticketNumber e ->
            exists k ek, (S i0 <= k)%nat /\ (e0 :: rest) !! k = Some ek /\
              ticketNumber ek = ticketNumber e /\
              forall k' ek', (k < k')%nat -> (e0 :: rest) !! k' = Some ek' ->
                ticketNumber ek' <> ticketNumber e).
  { intros i0 e1 H1 Ht.
    destruct (IH i0 e1 H1) as [k [ek [Hle [Hk [Hek Hlast]]]]].
    exists (S k), ek. rewrite Ht in Hek. repeat split; [lia | exact Hk | exact Hek |].
    intros [| k'] ek' Hlt Hk'; [lia |]. simpl in Hk'.
    rewrite <- Ht. apply (Hlast k' ek'); [lia | exact Hk']. }
  destruct i as [| i0]; simpl in Hi.
  - injection Hi as ->.
    destruct (decide (ticketNumber e ∈ ticketNumber <$> rest)) as [Hin | Hnin].
    + apply list_elem_of_fmap in Hin as [e1 [Ht He1]].
      apply list_elem_of_lookup in He1 as [i0 Hi0].
      destruct (Hshift i0 e1 Hi0 (eq_sym Ht)) as [k [ek [Hle H]]].
      exists k, ek. split; [lia | exact H].
    + exists 0%nat, e. repeat split; [lia |].
      intros [| k'] ek' Hlt Hk'; [lia |]. simpl in Hk'.
      intros Heq. apply Hnin. rewrite <- Heq.
      apply list_elem_of_fmap. exists ek'. split; [reflexivity |].
      apply list_elem_of_lookup. eauto.
  - destruct (Hshift i0 e Hi eq_refl) as [k [ek [Hle H]]].
    exists k, ek. split; [lia | exact H].
Qed.

(** In a list without repeated ticket numbers every position is the last
    occurrence of its ticket number. *)
Lemma NoDup_no_later entries i e :
  NoDup (ticketNumber <$> entries) -> entries !! i = Some e ->
  forall j e', (i < j)%nat -> entries !! j = Some e' ->
    ticketNumber e' <> ticketNumber e.
Proof.
  intros Hnd Hi j e' Hlt Hj Heq.
  assert (i = j); [| lia].
  apply (NoDup_lookup (ticketNumber <$> entries) i j (ticketNumber e) Hnd).
  - rewrite list_lookup_fmap, Hi. reflexivity.
  - rewrite list_lookup_fmap, Hj. simpl. now rewrite Heq.
Qed.

Lemma buildTicketAngleMap_last entries k e :
  entries !! k = Some e ->
  (forall j e', (k < j)%nat -> entries !! j = Some e' ->
     ticketNumber e' <> ticketNumber e) ->
  ticketToAngle (buildTicketAngleMap entries) !! ticketNumber e
    = Some (normalize (segmentCenterAngle (360 / num (length entries)) k)) /\
  ticketToIndex (buildTicketAngleMap entries) !! ticketNumber e = Some k.
Proof.
  intros Hk Hlast. rewrite buildTicketAngleMap_forEach.
  apply (forEachEntry_last _ 0 entries emptyTicketAngleMap k e Hk Hlast).
Qed.

End LastOccurrence.

(** C3.  AngleIndex build formula.  For a non-empty ordered entity list of
    length N (identifiers unique within the list, as the data model has it)
    the angle stored for the entity at 0-based position i is
    [normalize((i*(360/N) - 90) + (360/N)/2)] with
    [normalize(x) = ((x mod 360) + 360) mod 360]; getAngleForTicket returns
    exactly that angle, whatever the position index [ticketToIndex] holds. *)
Theorem buildTicketAngleMap_center (entries : list Entry) (i : nat) (e : Entry) :
  NoDup (ticketNumber <$> entries) ->
  entries !! i = Some e ->
  let N := length entries in
  let center := Js.rem (Js.rem ((num i * (360 / num N) - 90) + (360 / num N) / 2) 360 + 360) 360 in
  (0 < N)%nat /\
  getAngleForTicket (ticketNumber e) (buildTicketAngleMap entries) = Some center /\
  forall positions : gmap string nat,
    getAngleForTicket (ticketNumber e)
      {| ticketToAngle := ticketToAngle (buildTicketAngleMap entries);
         ticketToIndex := positions |} = Some center.
Proof.
  intros Hnd Hi N center.
  destruct (buildTicketAngleMap_last entries i e Hi (NoDup_no_later entries i e Hnd Hi))
    as [Hangle _].
  split; [| split].
  - apply lookup_lt_Some in Hi. subst N. lia.
  - exact Hangle.
  - intros positions. exact Hangle.
Qed.

Lemma buildTicketAngleMap_center_witness :
  getAngleForTicket "T3" (buildTicketAngleMap eightEntries)
  = Some (Js.rem (Js.rem ((num 2 * (360 / num 8) - 90) + (360 / num 8) / 2) 360 + 360) 360).
Proof.
  refine (proj1 (proj2 (buildTicketAngleMap_center eightEntries 2 (entryOf "T3") _ _))).
  - apply (bool_decide_unpack _). vm_compute. exact I.
  - reflexivity.
Defined.



(** C1, evaluated on the code.  Eight entries [T1 .. T8], wheel at rotation 0,
    target [T3] (position 2, centre 22.5), zero micro offset.  Under profile B
    with the draw that gives exactly 6 turns the planned end rotation is
    2182.5 and the winner computation returns position 1 ([T2]), not
    position 2: the angle to the target is added with the wrong sign.  Under
    profile A the same draw gives 5.5 turns, end rotation 2002.5 and
    position 5: the turn count is not whole.  Through spinWheel and animate,
    with the queue [[T3]], the winner is [T2]. *)
Theorem targeted_spin_misses_target :
  ticketToIndex eightMap !! "T3" = Some 2%nat /\
  (exists r,
     calculateFixedSpinByTicket 0 "T3" eightMap (Some ProfileB) plainDraws = inr r /\
     endRotation r == 2182.5 /\
     resolveWinner (endRotation r) (length eightEntries) = 1%nat) /\
  (exists r,
     calculateFixedSpinByTicket 0 "T3" eightMap (Some ProfileA) plainDraws = inr r /\
     endRotation r == 2002.5 /\
     resolveWinner (endRotation r) (length eightEntries) = 5%nat) /\
  winner (fst (run [RequestSpin plainSpinDraws; Frame 11000] (idleWheel ["T3"])))
  = Some {| winnerIndex := 1; winnerTicketNumber := Some "T2" |}.
Proof.
  split; [vm_compute; reflexivity | split; [| split]].
  - eexists. split; [vm_compute; reflexivity |].
    split; vm_compute; reflexivity.
  - eexists. split; [vm_compute; reflexivity |].
    split; vm_compute; reflexivity.
  - vm_compute. reflexivity.
Qed.

(** ** The fixed-ticket queue storage *)

Section QueueStorage.
Import Storage.

Lemma ticketExists_true snapshot ticket :
  ticketExists snapshot ticket = true <->
  exists e, e ∈ entries snapshot /\ ticketNumber e = ticket.
Proof.
  unfold ticketExists. rewrite existsb_exists. split.
  - intros [e [Hin Heq]]. exists e. split.
    + apply list_elem_of_In. exact Hin.
    + apply String.eqb_eq. exact Heq.
  - intros [e [Hin Heq]]. exists e. split.
    + apply list_elem_of_In. exact Hin.
    + apply String.eqb_eq. exact Heq.
Qed.

Lemma uniqueSize_NoDup (tickets : list string) :
  (uniqueSize tickets =? length tickets)%nat = true <-> NoDup tickets.
Proof.
  unfold uniqueSize. rewrite Nat.eqb_eq.
  destruct (distinct_count tickets) as [[Hnd Hsz] | [Hnd Hsz]].
  - split; intros _; assumption.
  - split; [lia | contradiction].
Qed.

(** The first unknown ticket, or none when all exist. *)
Lemma find_unknown snapshot tickets :
  match List.find (fun ticket => negb (ticketExists snapshot ticket)) tickets with
  | Some ticket =>
      ticket ∈ tickets /\ forall e, e ∈ entries snapshot -> ticketNumber e <> ticket
  | None =>
      forall ticket, ticket ∈ tickets ->
        exists e, e ∈ entries snapshot /\ ticketNumber e = ticket
  end.
Proof.
  destruct (List.find _ tickets) as [ticket |] eqn:Hfind.
  - apply List.find_some in Hfind as [Hin Hneg]. split.
    + apply list_elem_of_In. exact Hin.
    + intros e He Heq. apply negb_true_iff in Hneg.
      assert (Ht : ticketExists snapshot ticket = true)
        by (apply ticketExists_true; eauto).
      congruence.
  - intros ticket Hin. apply list_elem_of_In in Hin.
    pose proof (List.find_none _ _ Hfind ticket Hin) as Hneg. simpl in Hneg.
    apply negb_false_iff in Hneg. apply ticketExists_true. exact Hneg.
Qed.

End QueueStorage.

(** C6.  Atomicity of queue replacement.  For every prior snapshot and every
    input list: if the input has more than 3 identifiers, or a duplicate, or
    an identifier that no entry of the current list carries, then
    setFixedTicketsQueue throws and the snapshot (queue included) is exactly
    what it was; if the input is valid, nothing is thrown, the stored queue is
    the input in its order, and only the timestamp changes besides.  Every
    input is of one of the two kinds. *)
Theorem setFixedTicketsQueue_atomic (tickets : list string) (now : Z)
    (snapshot : Storage.WheelListSnapshot) :
  (Storage.malformedQueue snapshot tickets ->
     exists error,
       Storage.setFixedTicketsQueue tickets now snapshot = (Some error, snapshot)) /\
  (Storage.validQueue snapshot tickets ->
     Storage.setFixedTicketsQueue tickets now snapshot =
     (None,
      {| Storage.entries := Storage.entries snapshot;
         Storage.fixedTicketNumber := Storage.fixedTicketNumber snapshot;
         Storage.fixedTicketsQueue := tickets;
         Storage.lastUpdated := now |})) /\
  (Storage.malformedQueue snapshot tickets \/ Storage.validQueue snapshot tickets).
Proof.
  unfold Storage.setFixedTicketsQueue, Storage.malformedQueue, Storage.validQueue.
  pose proof (uniqueSize_NoDup tickets) as Huniq.
  pose proof (find_unknown snapshot tickets) as Hfind.
  destruct (3 <? length tickets)%nat eqn:Hlen;
    [apply Nat.ltb_lt in Hlen | apply Nat.ltb_ge in Hlen].
  { split; [eauto | split; [intros [Hle _]; lia | left; left; exact Hlen]]. }
  destruct (Storage.uniqueSize tickets =? length tickets)%nat eqn:Hsz; simpl.
  2: { assert (Hnd : ~ NoDup tickets) by (intros H; apply Huniq in H; discriminate).
       split; [eauto | split; [intros [_ [H _]]; contradiction | left; right; left; exact Hnd]]. }
  assert (Hnd : NoDup tickets) by (apply Huniq; reflexivity).
  destruct (List.find _ tickets) as [ticket |].
  - destruct Hfind as [Hin Hno].
    split; [eauto | split; [| left; right; right; eauto]].
    intros [_ [_ Hall]]. destruct (Hall ticket Hin) as [e [He Heq]].
    exfalso. exact (Hno e He Heq).
  - split; [| split; [reflexivity | right; auto]].
    intros [H | [H | [ticket [Hin Hno]]]]; [lia | contradiction |].
    destruct (Hfind ticket Hin) as [e [He Heq]]. exfalso. exact (Hno e He Heq).
Qed.

Lemma setFixedTicketsQueue_atomic_witness :
  (exists error,
     Storage.setFixedTicketsQueue ["T2"; "T2"] 7 StorageSample.snapshot0
     = (Some error, StorageSample.snapshot0)) /\
  Storage.fixedTicketsQueue
    (snd (Storage.setFixedTicketsQueue ["T3"; "T2"] 7 StorageSample.snapshot0))
  = ["T3"; "T2"].
Proof.
  split.
  - apply (proj1 (setFixedTicketsQueue_atomic ["T2"; "T2"] 7 StorageSample.snapshot0)).
    right; left. intros H. apply NoDup_cons in H as [H _].
    apply H, elem_of_cons. now left.
  - rewrite (proj1 (proj2 (setFixedTicketsQueue_atomic ["T3"; "T2"] 7
                             StorageSample.snapshot0))); [reflexivity |].
    split; [simpl; lia | split].
    + apply (bool_decide_unpack _). vm_compute. exact I.
    + intros ticket Hin. apply ticketExists_true.
      apply elem_of_cons in Hin as [-> | Hin]; [reflexivity |].
      apply elem_of_cons in Hin as [-> | Hin]; [reflexivity |].
      apply elem_of_nil in Hin. contradiction.
Defined.

(** ** The spin trigger *)

Section SpinTrigger.

Implicit Types (s : WheelState) (d : SpinDraws).

Lemma guard_open s :
  isSpinning s = false -> names s <> [] ->
  isSpinning s || (length (names s) =? 0)%nat = false.
Proof.
  intros Hspin Hnames. rewrite Hspin. simpl.
  apply Nat.eqb_neq. destruct (names s); [contradiction | discriminate].
Qed.

(** The guard sends a request back untouched. *)
Lemma spinWheel_refused d s :
  isSpinning s || (length (names s) =? 0)%nat = true ->
  spinWheel d s = {| completion := ReturnedUndefined; console := []; after := s |}.
Proof. intros Hguard. unfold spinWheel. rewrite Hguard. reflexivity. Qed.

Lemma spinWheel_returns d s : completion (spinWheel d s) = ReturnedUndefined.
Proof.
  unfold spinWheel. destruct (isSpinning s || _); [reflexivity |].
  destruct (consumeQueue s) as [[[ticket modeLog] queue1] count1].
  destruct ticket as [ticket |]; [| reflexivity].
  destruct (ticketAngleMap s) as [m |]; [| reflexivity].
  destruct (tryFixedSpin _ _ _ _ _) as [e | [targetAngle r]]; reflexivity.
Qed.

(** An accepted spin with an empty queue is a natural spin. *)
Lemma spinWheel_natural d s :
  isSpinning s = false -> names s <> [] -> fixedTicketsQueue s = [] ->
  console (spinWheel d s) = [LogSpinStarted []; LogNaturalMode (S (spinCount s))] /\
  fixedTicketsQueue (after (spinWheel d s)) = [] /\
  animationFrame (after (spinWheel d s)) = Some (naturalAnimation d s).
Proof.
  intros Hspin Hnames Hq. unfold spinWheel, consumeQueue.
  rewrite (guard_open s Hspin Hnames), Hq. simpl. repeat split.
Qed.

(** The queue an accepted spin leaves: the tail, or nothing after the
    fail-safe. *)
Lemma spinWheel_queue d s ticket rest :
  isSpinning s = false -> names s <> [] -> fixedTicketsQueue s = ticket :: rest ->
  (fixedTicketsQueue (after (spinWheel d s)) = rest \/
   fixedTicketsQueue (after (spinWheel d s)) = []) /\
  ((forall m, ticketAngleMap s = Some m -> is_Some (ticketToAngle m !! ticket)) ->
   fixedTicketsQueue (after (spinWheel d s)) = rest).
Proof.
  intros Hspin Hnames Hq. unfold spinWheel, consumeQueue.
  rewrite (guard_open s Hspin Hnames), Hq.
  destruct (orNull ticket) as [t |] eqn:Hnull; [| simpl; auto].
  assert (Ht : t = ticket).
  { unfold orNull in Hnull.
    destruct (String.eqb ticket ""); [discriminate | now injection Hnull]. }
  subst t.
  destruct (ticketAngleMap s) as [m |]; [| simpl; auto].
  unfold tryFixedSpin, getAngleForTicket, calculateFixedSpinByTicket.
  destruct (ticketToAngle m !! ticket) as [targetAngle |] eqn:Hget; simpl.
  - auto.
  - split; [auto |]. intros Hall. destruct (Hall m eq_refl) as [x Hx]. congruence.
Qed.

Lemma animate_queue t s : fixedTicketsQueue (animate t s) = fixedTicketsQueue s.
Proof.
  unfold animate. destruct (animationFrame s) as [a |]; [| reflexivity].
  destruct (animationCompleted s); [reflexivity |].
  destruct (Js.ltb _ 1); reflexivity.
Qed.

(** Every action leaves a suffix of the queue; an accepted spin drops at
    least the head. *)
Lemma step_queue_suffix (a : Action) s :
  exists j, ((if accepted a s then 1 else 0) <= j)%nat /\
            fixedTicketsQueue (step a s) = drop j (fixedTicketsQueue s).
Proof.
  destruct a as [d | t |]; simpl.
  - destruct (isSpinning s || (length (names s) =? 0)%nat) eqn:Hguard; simpl.
    + rewrite (spinWheel_refused d s Hguard). exists 0%nat. split; [lia | reflexivity].
    + apply orb_false_iff in Hguard as [Hspin Hlen].
      assert (Hnames : names s <> []).
      { intros Hnil. rewrite Hnil in Hlen. discriminate. }
      destruct (fixedTicketsQueue s) as [| ticket rest] eqn:Hq.
      * destruct (spinWheel_natural d s Hspin Hnames Hq) as [_ [Hq' _]].
        exists 1%nat. split; [lia | exact Hq'].
      * destruct (spinWheel_queue d s ticket rest Hspin Hnames Hq) as [[Hq' | Hq'] _].
        -- exists 1%nat. split; [lia | exact Hq'].
        -- exists (S (length rest)). split; [lia |].
           rewrite Hq'. simpl. symmetry. apply drop_all.
  - exists 0%nat. split; [lia | apply animate_queue].
  - exists 0%nat. split; [lia | reflexivity].
Qed.

Lemma run_queue_suffix (acts : list Action) s :
  exists j, (snd (run acts s) <= j)%nat /\
            fixedTicketsQueue (fst (run acts s)) = drop j (fixedTicketsQueue s).
Proof.
  revert s. induction acts as [| a rest IH]; intros s; simpl.
  - exists 0%nat. split; [lia | reflexivity].
  - destruct (IH (step a s)) as [j2 [Hle2 Hq2]].
    destruct (step_queue_suffix a s) as [j1 [Hle1 Hq1]].
    destruct (run rest (step a s)) as [s' k]. simpl in *.
    exists (j1 + j2)%nat. split.
    + destruct (accepted a s); lia.
    + rewrite Hq2, Hq1. apply drop_drop.
Qed.

Lemma run_requests_while_spinning (ds : list SpinDraws) s :
  isSpinning s = true -> run (RequestSpin <$> ds) s = (s, 0%nat).
Proof.
  intros Hspin. induction ds as [| d ds IH]; [reflexivity |].
  change (run (RequestSpin <$> d :: ds) s)
    with (let '(s', k) := run (RequestSpin <$> ds) (after (spinWheel d s)) in
          (s', if negb (isSpinning s || (length (names s) =? 0)%nat) then S k else k)).
  rewrite (spinWheel_refused d s) by (rewrite Hspin; reflexivity).
  cbn [after]. rewrite IH, Hspin. reflexivity.
Qed.

(** The tick at the end of a natural plan settles the spin. *)
Lemma animate_settles d s s1 :
  animationFrame s1 = Some (naturalAnimation d s) ->
  animationCompleted s1 = false -> winnerProcessed s1 = false ->
  isSpinning (animate (now d + 11000) s1) = false /\
  finalRotation (animate (now d + 11000) s1) = naturalEndRotation (finalRotation s) d /\
  exists index,
    winner (animate (now d + 11000) s1)
    = Some {| winnerIndex := index; winnerTicketNumber := ticketNumbers s1 !! index |}.
Proof.
  intros Hframe Hdone Hproc. unfold animate. rewrite Hframe, Hdone. simpl.
  assert (Hprogress : Js.ltb (Js.min ((now d + 11000 - now d) / 11000) 1) 1 = false).
  { apply ltb_ge. unfold Js.min.
    assert (Hone : (now d + 11000 - now d) / 11000 == 1) by (field; discriminate).
    destruct (Qle_bool _ 1); lra. }
  rewrite Hprogress, Hproc. simpl. repeat split. eauto.
Qed.

Lemma spinWheel_flags d s :
  isSpinning s = false -> names s <> [] ->
  isSpinning (after (spinWheel d s)) = true /\
  animationCompleted (after (spinWheel d s)) = false /\
  winnerProcessed (after (spinWheel d s)) = false.
Proof.
  intros Hspin Hnames. unfold spinWheel. rewrite (guard_open s Hspin Hnames).
  destruct (consumeQueue s) as [[[ticket modeLog] queue1] count1].
  destruct ticket as [ticket |]; [| repeat split].
  destruct (ticketAngleMap s) as [m |]; [| repeat split].
  destruct (tryFixedSpin _ _ _ _ _) as [e | [targetAngle r]]; repeat split.
Qed.

End SpinTrigger.

(** C5.  Fallback safety.  For every starting rotation and every queued
    identifier that the angle map does not contain, calculateFixedSpinByTicket
    throws, but nothing is thrown out of spinWheel: the call returns, the spin
    is started with the natural-mode end rotation
    [start + (5 + u*3)*360 + u'*360] and the 11000 ms duration, the queue is
    cleared (for the empty string, which [|| null] turns into "no ticket",
    only the head is dropped), and the tick at the end of the plan settles the
    spin on that rotation with a winner. *)
Theorem unknown_ticket_falls_back (d : SpinDraws) (s : WheelState)
    (ticket : string) (rest : list string) (m : TicketAngleMap) :
  isSpinning s = false -> names s <> [] ->
  fixedTicketsQueue s = ticket :: rest ->
  ticketAngleMap s = Some m ->
  ticketToAngle m !! ticket = None ->
  (forall currentRotation profile0 fd,
     calculateFixedSpinByTicket currentRotation ticket m profile0 fd
     = inl (TicketNotFound ticket)) /\
  completion (spinWheel d s) = ReturnedUndefined /\
  isSpinning (after (spinWheel d s)) = true /\
  animationFrame (after (spinWheel d s)) = Some (naturalAnimation d s) /\
  naturalEndRotation (finalRotation s) d
    == finalRotation s + ((5 + uSpins d * 3) * 360 + uAngle d * 360) /\
  fixedTicketsQueue (after (spinWheel d s))
    = (if String.eqb ticket "" then rest else []) /\
  (ticket <> "" ->
   console (spinWheel d s)
   = [LogSpinStarted (ticket :: rest);
      LogFixedModeActivated (Some ticket) (length rest) (S (spinCount s));
      WarnFixedSpinFailed (TicketNotFound ticket)]) /\
  isSpinning (animate (now d + 11000) (after (spinWheel d s))) = false /\
  finalRotation (animate (now d + 11000) (after (spinWheel d s)))
    = naturalEndRotation (finalRotation s) d /\
  is_Some (winner (animate (now d + 11000) (after (spinWheel d s)))).
Proof.
  intros Hspin Hnames Hq Hmap Hget.
  destruct (spinWheel_flags d s Hspin Hnames) as [Hrun [Hdone Hproc]].
  assert (Hframe : animationFrame (after (spinWheel d s)) = Some (naturalAnimation d s)).
  { unfold spinWheel, consumeQueue, orNull.
    rewrite (guard_open s Hspin Hnames), Hq, Hmap.
    destruct (String.eqb ticket ""); cbv beta iota;
      unfold tryFixedSpin, getAngleForTicket; rewrite ?Hget; reflexivity. }
  destruct (animate_settles d s _ Hframe Hdone Hproc) as [Hidle [Hfinal [index Hwin]]].
  split; [| split; [| split; [| split; [| split; [| split; [| split; [| split; [| split]]]]]]]].
  - intros currentRotation profile0 fd. unfold calculateFixedSpinByTicket.
    rewrite Hget. reflexivity.
  - apply spinWheel_returns.
  - exact Hrun.
  - exact Hframe.
  - unfold naturalEndRotation. ring.
  - unfold spinWheel, consumeQueue, orNull.
    rewrite (guard_open s Hspin Hnames), Hq, Hmap.
    destruct (String.eqb ticket ""); cbv beta iota;
      unfold tryFixedSpin, getAngleForTicket; rewrite ?Hget; reflexivity.
  - intros Hne. unfold spinWheel, consumeQueue, orNull.
    rewrite (guard_open s Hspin Hnames), Hq, Hmap.
    destruct (String.eqb ticket "") eqn:E.
    { apply String.eqb_eq in E. contradiction. }
    cbv beta iota. unfold tryFixedSpin, getAngleForTicket. rewrite Hget. reflexivity.
  - exact Hidle.
  - exact Hfinal.
  - rewrite Hwin. eauto.
Qed.

Lemma unknown_ticket_falls_back_witness :
  completion (spinWheel plainSpinDraws (idleWheel ["T9"; "T1"])) = ReturnedUndefined /\
  fixedTicketsQueue (after (spinWheel plainSpinDraws (idleWheel ["T9"; "T1"]))) = [] /\
  animationFrame (after (spinWheel plainSpinDraws (idleWheel ["T9"; "T1"])))
  = Some (naturalAnimation plainSpinDraws (idleWheel ["T9"; "T1"])).
Proof.
  pose proof (unknown_ticket_falls_back plainSpinDraws (idleWheel ["T9"; "T1"])
                "T9" ["T1"] eightMap eq_refl ltac:(discriminate) eq_refl eq_refl
                ltac:(vm_compute; reflexivity)) as H.
  split; [exact (proj1 (proj2 H)) | split].
  - exact (proj1 (proj2 (proj2 (proj2 (proj2 (proj2 H)))))).
  - exact (proj1 (proj2 (proj2 (proj2 H)))).
Defined.

(** C7, as the code has it.  For every state with an empty entity list a spin
    request is refused outright: the state is returned as it was (rotation,
    queue, winner and every other component), and the caller gets the plain
    return of every spinWheel call with nothing on the console: the refusal
    is silent. *)
Theorem empty_wheel_refuses_silently (d : SpinDraws) (s : WheelState) :
  names s = [] ->
  spinWheel d s = {| completion := ReturnedUndefined; console := []; after := s |}.
Proof.
  intros Hnames. apply spinWheel_refused. rewrite Hnames. apply orb_true_r.
Qed.

Lemma empty_wheel_refuses_silently_witness :
  after (spinWheel plainSpinDraws emptyWheel) = emptyWheel /\
  console (spinWheel plainSpinDraws emptyWheel) = [].
Proof.
  rewrite (empty_wheel_refuses_silently plainSpinDraws emptyWheel eq_refl).
  split; reflexivity.
Defined.

(** C7 as stated fails on the empty wheel: the refused request changes
    nothing, and it is not reported. *)
Lemma empty_wheel_refusal_not_reported :
  names emptyWheel = [] /\
  ~ (after (spinWheel plainSpinDraws emptyWheel) = emptyWheel /\
     reportedToCaller (spinWheel plainSpinDraws emptyWheel)).
Proof.
  split; [reflexivity |].
  intros [_ [[error Hthrown] | Hconsole]].
  - discriminate Hthrown.
  - apply Hconsole. reflexivity.
Qed.

(** C9.  Single active spin.  In every state where a spin is running
    ([isSpinning] is true) a spin request is a no-op: the state after the call
    is the state before it, so no animation is started, no queue entry is
    consumed and the scheduled plan keeps its end rotation and duration; the
    same holds for any number of requests in a row. *)
Theorem running_spin_request_noop (d : SpinDraws) (s : WheelState) :
  isSpinning s = true ->
  spinWheel d s = {| completion := ReturnedUndefined; console := []; after := s |} /\
  fixedTicketsQueue (after (spinWheel d s)) = fixedTicketsQueue s /\
  animationFrame (after (spinWheel d s)) = animationFrame s /\
  forall ds : list SpinDraws, run (RequestSpin <$> ds) s = (s, 0%nat).
Proof.
  intros Hspin.
  assert (H : spinWheel d s
              = {| completion := ReturnedUndefined; console := []; after := s |})
    by (apply spinWheel_refused; rewrite Hspin; reflexivity).
  rewrite H. repeat split.
  intros ds. apply run_requests_while_spinning. exact Hspin.
Qed.

Lemma running_spin_request_noop_witness :
  let running := after (spinWheel plainSpinDraws (idleWheel ["T3"; "T1"])) in
  isSpinning running = true /\
  after (spinWheel plainSpinDraws running) = running /\
  fixedTicketsQueue (after (spinWheel plainSpinDraws running)) = ["T1"].
Proof.
  intros running.
  assert (Hspin : isSpinning running = true) by reflexivity.
  pose proof (running_spin_request_noop plainSpinDraws running Hspin) as H.
  split; [exact Hspin | split].
  - rewrite (proj1 H). reflexivity.
  - rewrite (proj1 (proj2 H)). reflexivity.
Defined.

(** C8.  FIFO consumption and queue exhaustion.  A spin that begins with a
    non-empty queue takes the head as its ticket and leaves the tail as the
    queue before it plans; after planning the queue is that tail (always so
    when the ticket is in the angle map) or, after the fail-safe, empty.  Along
    any sequence of spin requests, animation ticks and winner dismissals the
    queue is the original queue with at least as many leading identifiers
    dropped as spins were accepted, so once as many spins were accepted as
    the queue had identifiers (whatever its size) the queue is empty, and
    every spin accepted then takes the natural branch and leaves it empty. *)
Theorem queue_fifo_and_exhaustion (acts : list Action) (s : WheelState) (d : SpinDraws) :
  (forall ticket rest,
     isSpinning s = false -> names s <> [] ->
     fixedTicketsQueue s = ticket :: rest ->
     consumeQueue s
     = (orNull ticket,
        [LogFixedModeActivated (orNull ticket) (length rest) (S (spinCount s))],
        rest, S (spinCount s)) /\
     (fixedTicketsQueue (after (spinWheel d s)) = rest \/
      fixedTicketsQueue (after (spinWheel d s)) = []) /\
     ((forall m, ticketAngleMap s = Some m -> is_Some (ticketToAngle m !! ticket)) ->
      fixedTicketsQueue (after (spinWheel d s)) = rest)) /\
  (exists j, (snd (run acts s) <= j)%nat /\
     fixedTicketsQueue (fst (run acts s)) = drop j (fixedTicketsQueue s)) /\
  ((length (fixedTicketsQueue s) <= snd (run acts s))%nat ->
   fixedTicketsQueue (fst (run acts s)) = [] /\
   (isSpinning (fst (run acts s)) = false -> names (fst (run acts s)) <> [] ->
    console (spinWheel d (fst (run acts s)))
    = [LogSpinStarted []; LogNaturalMode (S (spinCount (fst (run acts s))))] /\
    animationFrame (after (spinWheel d (fst (run acts s))))
    = Some (naturalAnimation d (fst (run acts s))) /\
    fixedTicketsQueue (after (spinWheel d (fst (run acts s)))) = [])).
Proof.
  split; [| split].
  - intros ticket rest Hspin Hnames Hq. split.
    + unfold consumeQueue. rewrite Hq. reflexivity.
    + apply spinWheel_queue; assumption.
  - apply run_queue_suffix.
  - intros Hlen. destruct (run_queue_suffix acts s) as [j [Hle Hq]].
    assert (Hempty : fixedTicketsQueue (fst (run acts s)) = []).
    { rewrite Hq. apply drop_ge. lia. }
    split; [exact Hempty |].
    intros Hspin Hnames.
    destruct (spinWheel_natural d _ Hspin Hnames Hempty) as [Hlog [Hq' Hframe]].
    repeat split; assumption.
Qed.

Lemma queue_fifo_and_exhaustion_witness :
  let acts := [RequestSpin plainSpinDraws; Frame 11000; CloseWinner;
               RequestSpin plainSpinDraws; Frame 11000; CloseWinner] in
  (length (fixedTicketsQueue (idleWheel ["T3"; "T1"]))
   <= snd (run acts (idleWheel ["T3"; "T1"])))%nat /\
  fixedTicketsQueue (fst (run acts (idleWheel ["T3"; "T1"]))) = [].
Proof.
  intros acts.
  assert (Hlen : (length (fixedTicketsQueue (idleWheel ["T3"; "T1"]))
                  <= snd (run acts (idleWheel ["T3"; "T1"])))%nat).
  { vm_compute. lia. }
  split; [exact Hlen |].
  exact (proj1 (proj2 (proj2 (queue_fifo_and_exhaustion acts (idleWheel ["T3"; "T1"])
                                plainSpinDraws)) Hlen)).
Defined.

(** * Further properties of the code *)

(** ** Angles up to whole turns *)

Section Congruence.

Lemma cong360_refl (x : Q) : cong360 x x.
Proof. exists 0%Z. qlra. Qed.

Lemma cong360_eq (x y : Q) : x == y -> cong360 x y.
Proof. intros H. exists 0%Z. qlra. Qed.

Lemma cong360_sym (x y : Q) : cong360 x y -> cong360 y x.
Proof. intros [k Hk]. exists (- k)%Z. rewrite inject_Z_opp. lra. Qed.

Lemma cong360_trans (x y z : Q) : cong360 x y -> cong360 y z -> cong360 x z.
Proof.
  intros [k1 H1] [k2 H2]. exists (k1 + k2)%Z. rewrite inject_Z_plus. lra.
Qed.


Lemma cong360_opp (x y : Q) : cong360 x y -> cong360 (- x) (- y).
Proof. intros [k Hk]. exists (- k)%Z. rewrite inject_Z_opp. lra. Qed.

Lemma cong360_turns (k : Z) : cong360 (inject_Z k * 360) 0.
Proof. exists k. lra. Qed.

Lemma cong360_turn : cong360 360 0.
Proof. exists 1%Z. qlra. Qed.

(** Two angles of [[0, 360)] that differ by whole turns are equal. *)
Lemma cong360_unique (x y : Q) :
  0 <= x -> x < 360 -> 0 <= y -> y < 360 -> cong360 x y -> x == y.
Proof.
  intros Hx0 Hx1 Hy0 Hy1 [k Hk].
  assert (Hlo : inject_Z (-1) < inject_Z k) by (change (inject_Z (-1)) with (-1); lra).
  assert (Hhi : inject_Z k < inject_Z 1) by (change (inject_Z 1) with 1; lra).
  rewrite <- Zlt_Qlt in Hlo, Hhi.
  assert (k = 0%Z) as -> by lia. qlra.
Qed.

Lemma rem360_cong (x : Q) : cong360 (Js.rem x 360) x.
Proof.
  destruct (rem360_spec x) as [k [Hk _]]. exists (- k)%Z. rewrite inject_Z_opp. lra.
Qed.

Lemma normalize_cong (x : Q) : cong360 (normalize x) x.
Proof.
  unfold normalize.
  destruct (rem360_spec x) as [k1 [H1 _]].
  destruct (rem360_spec (Js.rem x 360 + 360)) as [k2 [H2 _]].
  exists (1 + (- k1 + - k2))%Z.
  rewrite !inject_Z_plus, !inject_Z_opp. qlra.
Qed.

Lemma pointer_cong (frozenRot : Q) : cong360 (pointerAngleInOriginal frozenRot) (- frozenRot).
Proof.
  unfold pointerAngleInOriginal. eapply cong360_trans; [apply rem360_cong |].
  destruct (normalize_cong frozenRot) as [k Hk].
  exists (1 - k)%Z. unfold Zminus. rewrite inject_Z_plus, inject_Z_opp. qlra.
Qed.

Lemma fromTop_cong (angle : Q) : cong360 (fromTop angle) (angle + 90).
Proof.
  unfold fromTop. destruct (Js.ltb angle 270).
  - apply cong360_refl.
  - exists (-1)%Z. change (inject_Z (-1)) with (-1). lra.
Qed.

End Congruence.

(** ** The angle index and the winner block agree *)

Section IndexAndResolver.

Implicit Types (entries : list Entry) (t : string).

Lemma forEachEntry_dom_index sliceAngle index entries (m : TicketAngleMap) :
  dom (ticketToIndex (forEachEntry sliceAngle index entries m))
  = list_to_set (ticketNumber <$> entries) ∪ dom (ticketToIndex m).
Proof.
  revert index m. induction entries as [| e rest IH]; intros index m; simpl.
  - symmetry. apply (left_id_L ∅ (∪)).
  - rewrite IH. simpl. rewrite dom_insert_L.
    apply set_eq. intros x. rewrite !elem_of_union. tauto.
Qed.

Lemma buildTicketAngleMap_dom entries :
  dom (ticketToAngle (buildTicketAngleMap entries))
  = list_to_set (ticketNumber <$> entries) /\
  dom (ticketToIndex (buildTicketAngleMap entries))
  = list_to_set (ticketNumber <$> entries).
Proof.
  rewrite buildTicketAngleMap_forEach, forEachEntry_dom, forEachEntry_dom_index.
  simpl. rewrite !dom_empty_L. split; apply (right_id_L ∅ (∪)).
Qed.


End IndexAndResolver.

(** X1.  A ticket number that no entry carries has no binding in either map
    (for the empty list: no ticket has one), and a ticket number that some
    entry carries has a binding in both. *)
Theorem lookup_missing_ticket (entries : list Entry) (t : string) :
  (getAngleForTicket t (buildTicketAngleMap entries) = None <->
   t ∉ ticketNumber <$> entries) /\
  (ticketToIndex (buildTicketAngleMap entries) !! t = None <->
   t ∉ ticketNumber <$> entries) /\
  getAngleForTicket t (buildTicketAngleMap []) = None.
Proof.
  destruct (buildTicketAngleMap_dom entries) as [Ha Hi].
  unfold getAngleForTicket. split; [| split].
  - rewrite <- not_elem_of_dom, Ha, elem_of_list_to_set. reflexivity.
  - rewrite <- not_elem_of_dom, Hi, elem_of_list_to_set. reflexivity.
  - apply lookup_empty.
Qed.

(** X2.  Every angle found in the index is the normalised centre of a
    position below N that carries the ticket number, that position is the
    one [ticketToIndex] records, and the angle lies in [[0, 360)]. *)
Theorem stored_angle_is_a_centre (entries : list Entry) (t : string) (a : Q) :
  getAngleForTicket t (buildTicketAngleMap entries) = Some a ->
  exists k e,
    (k < length entries)%nat /\ entries !! k = Some e /\ ticketNumber e = t /\
    ticketToIndex (buildTicketAngleMap entries) !! t = Some k /\
    a = normalize (segmentCenterAngle (360 / num (length entries)) k) /\
    0 <= a /\ a < 360.
Proof.
  intros Hget.
  assert (Hin : t ∈ ticketNumber <$> entries).
  { destruct (buildTicketAngleMap_dom entries) as [Ha _].
    apply (elem_of_list_to_set (C := gset string)). rewrite <- Ha.
    apply elem_of_dom. unfold getAngleForTicket in Hget. eauto. }
  apply list_elem_of_fmap in Hin as [e0 [Ht He0]].
  apply list_elem_of_lookup in He0 as [i Hi].
  destruct (last_occurrence entries i e0 Hi) as [k [ek [_ [Hk [Hek Hlast]]]]].
  assert (Hlast' : forall j e', (k < j)%nat -> entries !! j = Some e' ->
            ticketNumber e' <> ticketNumber ek).
  { intros j e' Hlt Hj. rewrite Hek. apply (Hlast j e' Hlt Hj). }
  destruct (buildTicketAngleMap_last entries k ek Hk Hlast') as [Hangle Hindex].
  rewrite Hek, <- Ht in Hangle, Hindex.
  unfold getAngleForTicket in Hget. rewrite Hangle in Hget. injection Hget as <-.
  exists k, ek. destruct (normalize_range (segmentCenterAngle (360 / num (length entries)) k)).
  repeat split; try assumption.
  - apply lookup_lt_Some in Hk. exact Hk.
  - rewrite Hek. symmetry. exact Ht.
Qed.

Lemma stored_angle_is_a_centre_witness :
  exists k e,
    (k < length eightEntries)%nat /\ eightEntries !! k = Some e /\ ticketNumber e = "T5".
Proof.
  destruct (stored_angle_is_a_centre eightEntries "T5" _ eq_refl)
    as [k [e [Hk [He [Ht _]]]]].
  exists k, e. repeat split; assumption.
Defined.

(** X3.  In a list with unique ticket numbers two different positions never
    get the same angle: the angles stored for their tickets differ as
    numbers. *)
Theorem distinct_positions_distinct_angles (entries : list Entry) (i j : nat)
    (e e' : Entry) (a a' : Q) :
  NoDup (ticketNumber <$> entries) ->
  entries !! i = Some e -> entries !! j = Some e' ->
  getAngleForTicket (ticketNumber e) (buildTicketAngleMap entries) = Some a ->
  getAngleForTicket (ticketNumber e') (buildTicketAngleMap entries) = Some a' ->
  i <> j -> ~ a == a'.
Proof.
  intros Hnd Hi Hj Ha Ha' Hne Heq. apply Hne.
  destruct (buildTicketAngleMap_last entries i e Hi (NoDup_no_later entries i e Hnd Hi))
    as [Hai _].
  destruct (buildTicketAngleMap_last entries j e' Hj (NoDup_no_later entries j e' Hnd Hj))
    as [Haj _].
  unfold getAngleForTicket in Ha, Ha'.
  rewrite Hai in Ha. rewrite Haj in Ha'. injection Ha as <-. injection Ha' as <-.
  pose proof (lookup_lt_Some _ _ _ Hi) as Hilt.
  pose proof (lookup_lt_Some _ _ _ Hj) as Hjlt.
  assert (Hc : (0 < length entries)%nat) by lia.
  destruct (slice_bounds _ Hc i Hilt) as [Hi0 Hi1].
  destruct (slice_bounds _ Hc j Hjlt) as [Hj0 Hj1].
  pose proof (width_pos _ Hc) as Hw.
  unfold sliceAngleOf in *.
  remember (360 / num (length entries)) as w eqn:Ew.
  assert (Hcong : cong360 (segmentCenterAngle w i) (segmentCenterAngle w j)).
  { eapply cong360_trans; [apply cong360_sym, normalize_cong |].
    eapply cong360_trans; [apply cong360_eq, Heq | apply normalize_cong]. }
  unfold segmentCenterAngle in Hcong. clear Hai Haj Heq Ew.
  assert (Hh : w / 2 + w / 2 == w) by field.
  set (h := w / 2) in *. clearbody h.
  assert (Hexpi : (num i + 1) * w == num i * w + w) by ring.
  assert (Hexpj : (num j + 1) * w == num j * w + w) by ring.
  assert (Hsame : num i * w + h == num j * w + h).
  { apply cong360_unique; [lra ..|].
    destruct Hcong as [K HK]. exists K. lra. }
  assert (Hprod : (num i - num j) * w == 0) by lra.
  apply Qmult_integral in Hprod as [Hz | Hz]; [| lra].
  assert (Hnum : num i == num j) by lra.
  unfold num in Hnum. apply (proj1 (inject_Z_injective _ _)) in Hnum. lia.
Qed.

Lemma distinct_positions_distinct_angles_witness :
  exists a a',
    getAngleForTicket "T3" (buildTicketAngleMap eightEntries) = Some a /\
    getAngleForTicket "T6" (buildTicketAngleMap eightEntries) = Some a' /\
    ~ a == a'.
Proof.
  eexists. eexists. split; [reflexivity |]. split; [reflexivity |].
  refine (distinct_positions_distinct_angles eightEntries 2 5 (entryOf "T3") (entryOf "T6")
            _ _ _ eq_refl eq_refl eq_refl eq_refl _).
  - apply (bool_decide_unpack _). vm_compute. exact I.
  - lia.
Defined.



(** ** The targeted planner: ranges *)

Section PlannerRanges.

Lemma currentPointerAngle_range (currentRotation : Q) :
  0 <= currentPointerAngle currentRotation /\ currentPointerAngle currentRotation < 360.
Proof.
  unfold currentPointerAngle.
  destruct (rem360_spec currentRotation) as [k [_ [[_ [H1 H2]] | [_ [H1 H2]]]]].
  - destruct (Qlt_le_dec 0 (Js.rem currentRotation 360)) as [Hpos | Hzero].
    + rewrite rem360_small by lra. lra.
    + rewrite (rem360_window _ 1); qlra.
  - rewrite rem360_second by lra. lra.
Qed.

Lemma currentPointerAngle_cong (currentRotation : Q) :
  cong360 (currentPointerAngle currentRotation) (- currentRotation).
Proof.
  unfold currentPointerAngle.
  destruct (rem360_spec currentRotation) as [k1 [H1 _]].
  destruct (rem360_spec (360 - Js.rem currentRotation 360)) as [k2 [H2 _]].
  exists (1 + (k1 + - k2))%Z. rewrite !inject_Z_plus, inject_Z_opp. qlra.
Qed.

Lemma forEachEntry_range sliceAngle index (entries : list Entry) (m : TicketAngleMap) :
  (forall t a, ticketToAngle m !! t = Some a -> 0 <= a /\ a < 360) ->
  forall t a, ticketToAngle (forEachEntry sliceAngle index entries m) !! t = Some a ->
              0 <= a /\ a < 360.
Proof.
  revert index m. induction entries as [| e rest IH]; intros index m Hm; simpl.
  - exact Hm.
  - apply IH. intros t a. simpl.
    destruct (decide (ticketNumber e = t)) as [-> | Hne].
    + rewrite lookup_insert_eq. intros [= <-]. apply normalize_range.
    + rewrite lookup_insert_ne by exact Hne. apply Hm.
Qed.

Lemma buildTicketAngleMap_range (entries : list Entry) (t : string) (a : Q) :
  ticketToAngle (buildTicketAngleMap entries) !! t = Some a -> 0 <= a /\ a < 360.
Proof.
  rewrite buildTicketAngleMap_forEach. apply forEachEntry_range.
  intros t' a'. simpl. rewrite lookup_empty. discriminate.
Qed.

Lemma angleToTarget_range (targetAngle currentRotation : Q) :
  0 <= targetAngle -> targetAngle < 360 ->
  0 <= angleToTarget targetAngle currentRotation /\
  angleToTarget targetAngle currentRotation < 360.
Proof.
  intros H0 H1. destruct (currentPointerAngle_range currentRotation) as [Hp0 Hp1].
  unfold angleToTarget.
  ltb_case (targetAngle - currentPointerAngle currentRotation) 0 E; lra.
Qed.

Lemma min_le_l (x y : Q) : Js.min x y <= x.
Proof.
  unfold Js.min. destruct (Qle_bool x y) eqn:E; [apply Qle_refl |].
  destruct (Qlt_le_dec y x) as [Hlt | Hle]; [lra |].
  apply Qle_bool_iff in Hle. congruence.
Qed.

(** The rotation a targeted plan adds, for any profile. *)
Lemma fixed_delta_bounds (p : RotationProfile) (n : nat) (u u' att : Q) :
  (1 <= n)%nat -> unit_draw u -> unit_draw u' -> 0 <= att -> att < 360 ->
  1870 < (minRotations p + u * (maxRotations p - minRotations p)) * 360
         + att + microOffset p n u' /\
  (minRotations p + u * (maxRotations p - minRotations p)) * 360
  + att + microOffset p n u' < 3422.
Proof.
  intros Hn [Hu0 Hu1] Hu' Ha0 Ha1.
  pose proof (microOffset_half_range p n u' Hn Hu') as Hm.
  apply Qabs_Qle_condition in Hm as [Hm0 Hm1].
  pose proof (min_le_l (baseMicroOffsetRange p) (maxSafeOffset n)) as Hle.
  fold (adaptiveMicroOffsetRange p n) in Hle.
  set (mo := microOffset p n u') in *. clearbody mo.
  set (R := adaptiveMicroOffsetRange p n) in *. clearbody R.
  destruct p; unfold minRotations, maxRotations, baseMicroOffsetRange in *; split; lra.
Qed.

Lemma profileDuration_bounds (p : RotationProfile) (u : Q) :
  unit_draw u -> 10700 <= profileDuration p u /\ profileDuration p u < 11300.
Proof. intros [H0 H1]. destruct p; unfold profileDuration; split; lra. Qed.

End PlannerRanges.

(** X5.  For a target angle of [[0, 360)] and any current rotation (negative
    ones included) the angle to the target computed by the planner lies in
    [[0, 360)] and differs from [targetAngle + currentRotation] by a whole
    number of turns. *)
Theorem angleToTarget_characterised (targetAngle currentRotation : Q) :
  0 <= targetAngle -> targetAngle < 360 ->
  0 <= angleToTarget targetAngle currentRotation /\
  angleToTarget targetAngle currentRotation < 360 /\
  cong360 (angleToTarget targetAngle currentRotation) (targetAngle + currentRotation).
Proof.
  intros H0 H1.
  destruct (angleToTarget_range targetAngle currentRotation H0 H1) as [Ha0 Ha1].
  split; [exact Ha0 | split; [exact Ha1 |]].
  destruct (currentPointerAngle_cong currentRotation) as [k Hk].
  unfold angleToTarget.
  destruct (Js.ltb (targetAngle - currentPointerAngle currentRotation) 0).
  - exists (1 + - k)%Z. rewrite inject_Z_plus, inject_Z_opp. qlra.
  - exists (- k)%Z. rewrite inject_Z_opp. lra.
Qed.

Lemma angleToTarget_characterised_witness :
  0 <= angleToTarget 22.5 (-725) /\ angleToTarget 22.5 (-725) < 360.
Proof.
  destruct (angleToTarget_characterised 22.5 (-725)) as [H0 [H1 _]].
  - vm_compute. discriminate.
  - vm_compute. reflexivity.
  - split; assumption.
Defined.

(** X6.  Whenever calculateFixedSpinByTicket returns for an index built by
    buildTicketAngleMap, with draws in [[0, 1)], the wheel is turned forward
    by more than 1870 and less than 3422 degrees, and the duration lies in
    [[10700, 11300)] ms. *)
Theorem fixed_spin_plan_bounds (entries : list Entry) (currentRotation : Q)
    (ticket : string) (profile0 : option RotationProfile) (d : FixedDraws)
    (r : FixedSpinResult) :
  fixedDrawsOk d ->
  calculateFixedSpinByTicket currentRotation ticket (buildTicketAngleMap entries) profile0 d
  = inr r ->
  currentRotation + 1870 < endRotation r /\ endRotation r < currentRotation + 3422 /\
  10700 <= duration r /\ duration r < 11300.
Proof.
  intros [_ [Hdur [Hrot Hmicro]]] Hcalc.
  destruct (calculateFixedSpinByTicket_found _ _ _ _ _ _ Hcalc)
    as [targetAngle [Hget [Hsize [_ [Hd Hend]]]]].
  destruct (buildTicketAngleMap_range entries ticket targetAngle Hget) as [Ht0 Ht1].
  destruct (angleToTarget_range targetAngle currentRotation Ht0 Ht1) as [Ha0 Ha1].
  destruct (fixed_delta_bounds (profile r) _ (uRotations d) (uMicro d) _
              Hsize Hrot Hmicro Ha0 Ha1) as [Hlo Hhi].
  destruct (profileDuration_bounds (profile r) (uDuration d) Hdur) as [Hd0 Hd1].
  rewrite Hend, Hd. repeat split; lra.
Qed.

Lemma fixed_spin_plan_bounds_witness :
  fixedDrawsOk plainDraws /\
  exists r,
    calculateFixedSpinByTicket 0 "T3" (buildTicketAngleMap eightEntries)
      (Some ProfileB) plainDraws = inr r /\
    0 + 1870 < endRotation r /\ endRotation r < 0 + 3422.
Proof.
  assert (Hok : fixedDrawsOk plainDraws)
    by (repeat split; vm_compute; congruence).
  split; [exact Hok |].
  eexists. split; [vm_compute; reflexivity |].
  destruct (fixed_spin_plan_bounds eightEntries 0 "T3" (Some ProfileB) plainDraws _
              Hok eq_refl) as [H0 [H1 _]].
  split; assumption.
Defined.

(** ** The index-based planner *)

Section IndexPlanner.
Import WheelPhysics.

Lemma normalizedTargetCenter_centre (totalEntries i : nat) :
  normalizedTargetCenter totalEntries (Z.of_nat i)
  = normalize (segmentCenterAngle (360 / num totalEntries) i).
Proof. reflexivity. Qed.

Lemma generateFrom_modes sequence indices fixedIndex :
  mode <$> generateFrom sequence indices fixedIndex = sequence.
Proof.
  revert fixedIndex. induction sequence as [| m rest IH]; intros fixedIndex; [reflexivity |].
  destruct m; simpl; f_equal; apply IH.
Qed.

Lemma generateFrom_indices sequence indices fixedIndex :
  omap fixedWinnerIndex (generateFrom sequence indices fixedIndex)
  = (fun k => default 0%Z (default [] indices !! k))
    <$> seq fixedIndex (length (List.filter isFixed sequence)).
Proof.
  revert fixedIndex. induction sequence as [| m rest IH]; intros fixedIndex; [reflexivity |].
  destruct m; simpl.
  - apply IH.
  - f_equal; [destruct indices; reflexivity | apply IH].
Qed.

End IndexPlanner.

(** X7.  calculateFixedWinnerRotation throws exactly when there are no
    entries (checked first) or the index is negative or not below the entry
    count; in every other case it returns, with the duration 11000. *)
Theorem calculateFixedWinnerRotation_errors (currentRotation : Q) (index : Z)
    (totalEntries : nat) (d : WheelPhysics.Draws) :
  (totalEntries = 0%nat ->
   WheelPhysics.calculateFixedWinnerRotation currentRotation index totalEntries d
   = inl WheelPhysics.NoEntries) /\
  (totalEntries <> 0%nat -> (index < 0 \/ Z.of_nat totalEntries <= index)%Z ->
   WheelPhysics.calculateFixedWinnerRotation currentRotation index totalEntries d
   = inl (WheelPhysics.InvalidWinnerIndex index)) /\
  ((0 <= index < Z.of_nat totalEntries)%Z ->
   exists r,
     WheelPhysics.calculateFixedWinnerRotation currentRotation index totalEntries d = inr r /\
     WheelPhysics.duration r = 11000).
Proof.
  unfold WheelPhysics.calculateFixedWinnerRotation. split; [| split].
  - intros ->. reflexivity.
  - intros Hne Hbad. destruct totalEntries as [| n]; [contradiction |].
    cbn [Nat.eqb].
    destruct ((index <? 0)%Z || (Z.of_nat (S n) <=? index)%Z) eqn:E; [reflexivity |].
    apply orb_false_iff in E as [E1 E2].
    apply Z.ltb_ge in E1. apply Z.leb_gt in E2. lia.
  - intros [H0 H1]. destruct totalEntries as [| n]; [simpl in H1; lia |].
    cbn [Nat.eqb].
    destruct ((index <? 0)%Z || (Z.of_nat (S n) <=? index)%Z) eqn:E.
    + apply orb_true_iff in E as [E | E];
        [apply Z.ltb_lt in E | apply Z.leb_le in E]; lia.
    + eexists. split; reflexivity.
Qed.

(** X8.  The index-based planner aims at the angle the index stores: for the
    ticket at position i of a list with unique ticket numbers,
    calculateFixedWinnerRotation at index i returns the current rotation plus
    (5 + 3u) turns, the angle to the stored angle of that ticket and an
    offset of 4(u' - 0.5) degrees, which is not scaled to the slice width;
    with draws in [[0, 1)] the wheel is turned forward by at least 1798 and
    less than 3242 degrees. *)
Theorem index_planner_aims_at_stored_angle (entries : list Entry) (i : nat) (e : Entry)
    (currentRotation : Q) (d : WheelPhysics.Draws) :
  NoDup (ticketNumber <$> entries) ->
  entries !! i = Some e ->
  unit_draw (WheelPhysics.uTurns d) -> unit_draw (WheelPhysics.uOffset d) ->
  exists a r,
    getAngleForTicket (ticketNumber e) (buildTicketAngleMap entries) = Some a /\
    WheelPhysics.calculateFixedWinnerRotation currentRotation (Z.of_nat i)
      (length entries) d = inr r /\
    WheelPhysics.endRotation r
    = currentRotation
      + ((5 + WheelPhysics.uTurns d * (8 - 5)) * 360
         + angleToTarget a currentRotation
         + (WheelPhysics.uOffset d - 0.5) * 4) /\
    currentRotation + 1798 <= WheelPhysics.endRotation r /\
    WheelPhysics.endRotation r < currentRotation + 3242.
Proof.
  intros Hnd Hi [Hu0 Hu1] [Hv0 Hv1].
  destruct (buildTicketAngleMap_last entries i e Hi (NoDup_no_later entries i e Hnd Hi))
    as [Hangle _].
  pose proof (lookup_lt_Some _ _ _ Hi) as Hlt.
  destruct (normalize_range (segmentCenterAngle (360 / num (length entries)) i))
    as [Ht0 Ht1].
  destruct (angleToTarget_range _ currentRotation Ht0 Ht1) as [Ha0 Ha1].
  eexists. eexists. split; [exact Hangle |].
  unfold WheelPhysics.calculateFixedWinnerRotation.
  assert (Hzero : (length entries =? 0)%nat = false) by (apply Nat.eqb_neq; lia).
  assert (Hguard : (Z.of_nat i <? 0)%Z || (Z.of_nat (length entries) <=? Z.of_nat i)%Z
                   = false).
  { apply orb_false_iff. split; [apply Z.ltb_ge | apply Z.leb_gt]; lia. }
  rewrite Hzero, Hguard, normalizedTargetCenter_centre.
  split; [reflexivity |]. cbn [WheelPhysics.endRotation].
  split; [reflexivity |]. split; lra.
Qed.

Lemma index_planner_aims_at_stored_angle_witness :
  exists a r,
    getAngleForTicket "T3" (buildTicketAngleMap eightEntries) = Some a /\
    WheelPhysics.calculateFixedWinnerRotation 0 (Z.of_nat 2) (length eightEntries)
      {| WheelPhysics.uTurns := 0; WheelPhysics.uOffset := 0.5 |} = inr r.
Proof.
  destruct (index_planner_aims_at_stored_angle eightEntries 2 (entryOf "T3") 0
              {| WheelPhysics.uTurns := 0; WheelPhysics.uOffset := 0.5 |})
    as [a [r [Ha [Hr _]]]].
  - apply (bool_decide_unpack _). vm_compute. exact I.
  - reflexivity.
  - split; vm_compute; congruence.
  - split; vm_compute; congruence.
  - exists a, r. split; assumption.
Defined.

(** X9.  generateMixedSequence returns one configuration per mode of the
    sequence, in order and with that mode; random spins carry no index; the
    k-th fixed spin carries the k-th given index, or 0 when no k-th index was
    given. *)
Theorem generateMixedSequence_shape (sequence : list WheelPhysics.SpinMode)
    (totalEntries : nat) (fixedWinnerIndices : option (list Z)) :
  let configs := WheelPhysics.generateMixedSequence sequence totalEntries fixedWinnerIndices in
  length configs = length sequence /\
  WheelPhysics.mode <$> configs = sequence /\
  (forall c, c ∈ configs ->
     WheelPhysics.mode c = WheelPhysics.ModeRandom <->
     WheelPhysics.fixedWinnerIndex c = None) /\
  omap WheelPhysics.fixedWinnerIndex configs
  = (fun k => default 0%Z (default [] fixedWinnerIndices !! k))
    <$> seq 0 (length (List.filter WheelPhysics.isFixed sequence)).
Proof.
  intros configs. subst configs. unfold WheelPhysics.generateMixedSequence.
  pose proof (generateFrom_modes sequence fixedWinnerIndices 0) as Hmodes.
  split; [| split; [exact Hmodes | split]].
  - rewrite <- Hmodes at 2. rewrite length_fmap. reflexivity.
  - clear Hmodes. generalize 0%nat.
    induction sequence as [| m rest IH]; intros k c Hc; simpl in Hc.
    + apply elem_of_nil in Hc. contradiction.
    + destruct m; apply elem_of_cons in Hc as [-> | Hc]; simpl;
        try (apply (IH _ c Hc)); split; try reflexivity; discriminate.
  - apply generateFrom_indices.
Qed.

(** ** The other storage operations *)

Section StorageOperations.
Import Storage StorageOps.

Lemma validateTicketNumber_true snapshot ticket :
  validateTicketNumber snapshot ticket = true <->
  ticket ∈ ticketNumber <$> entries snapshot.
Proof.
  change (validateTicketNumber snapshot ticket) with (ticketExists snapshot ticket).
  rewrite ticketExists_true, list_elem_of_fmap. split.
  - intros [e [He Ht]]. exists e. split; [symmetry; exact Ht | exact He].
  - intros [e [Ht He]]. exists e. split; [exact He | symmetry; exact Ht].
Qed.

(** [find] returns the first element that passes the test. *)
Lemma find_first {A : Type} (f : A -> bool) (l : list A) (x : A) :
  List.find f l = Some x <->
  exists i, l !! i = Some x /\ f x = true /\
            forall j y, (j < i)%nat -> l !! j = Some y -> f y = false.
Proof.
  induction l as [| a l IH]; simpl.
  - split; [discriminate | intros [i [Hi _]]; discriminate].
  - destruct (f a) eqn:Ea.
    + split.
      * intros [= <-]. exists 0%nat. repeat split; [exact Ea | intros; lia].
      * intros [[| i] [Hi [Hx Hfirst]]]; simpl in Hi; [congruence |].
        specialize (Hfirst 0%nat a ltac:(lia) eq_refl). congruence.
    + rewrite IH. split.
      * intros [i [Hi [Hx Hfirst]]]. exists (S i). repeat split; try assumption.
        intros [| j] y Hlt Hy; simpl in Hy; [congruence |].
        apply (Hfirst j y); [lia | exact Hy].
      * intros [[| i] [Hi [Hx Hfirst]]]; simpl in Hi; [congruence |].
        exists i. repeat split; try assumption.
        intros j y Hlt Hy. apply (Hfirst (S j) y); [lia | exact Hy].
Qed.

End StorageOperations.

(** X10.  setFixedTicketNumber is atomic: a ticket number that no entry
    carries makes it throw and leaves the snapshot as it was; [null] is
    always accepted, also on an empty list; on success only the fixed ticket
    and the timestamp change - the queue is not touched. *)
Theorem setFixedTicketNumber_atomic (ticket : option string) (now : Z)
    (snapshot : Storage.WheelListSnapshot) :
  (forall t, ticket = Some t -> t ∉ Storage.ticketNumber <$> Storage.entries snapshot ->
     StorageOps.setFixedTicketNumber ticket now snapshot
     = (Some (Storage.UnknownTicket t), snapshot)) /\
  ((ticket = None \/
    exists t, ticket = Some t /\ t ∈ Storage.ticketNumber <$> Storage.entries snapshot) ->
   StorageOps.setFixedTicketNumber ticket now snapshot
   = (None,
      {| Storage.entries := Storage.entries snapshot;
         Storage.fixedTicketNumber := ticket;
         Storage.fixedTicketsQueue := Storage.fixedTicketsQueue snapshot;
         Storage.lastUpdated := now |})).
Proof.
  unfold StorageOps.setFixedTicketNumber. split.
  - intros t -> Hnot.
    destruct (existsb _ (Storage.entries snapshot)) eqn:E; [| reflexivity].
    exfalso. apply Hnot. apply validateTicketNumber_true. exact E.
  - intros [-> | [t [-> Hin]]]; [reflexivity |].
    apply validateTicketNumber_true in Hin.
    unfold StorageOps.validateTicketNumber in Hin. rewrite Hin. reflexivity.
Qed.

(** X11.  What a successful setFixedTicketsQueue leaves behind: the stored
    queue has at most 3 tickets, no duplicates, every one of them passes
    validateTicketNumber, and getNextFixedTicket returns its first ticket
    ([null] for the empty queue) without removing it.  The empty queue is
    always accepted and the result is that of clearFixedTicketsQueue. *)
Theorem queue_valid_after_set (tickets : list string) (now : Z)
    (snapshot snapshot' : Storage.WheelListSnapshot) :
  Storage.setFixedTicketsQueue tickets now snapshot = (None, snapshot') ->
  Storage.fixedTicketsQueue snapshot' = tickets /\
  (length (Storage.fixedTicketsQueue snapshot') <= 3)%nat /\
  NoDup (Storage.fixedTicketsQueue snapshot') /\
  (forall t, t ∈ Storage.fixedTicketsQueue snapshot' ->
     StorageOps.validateTicketNumber snapshot' t = true) /\
  StorageOps.getNextFixedTicket snapshot' = head tickets /\
  Storage.setFixedTicketsQueue [] now snapshot
  = (None, StorageOps.clearFixedTicketsQueue now snapshot).
Proof.
  unfold Storage.setFixedTicketsQueue.
  pose proof (uniqueSize_NoDup tickets) as Huniq.
  pose proof (find_unknown snapshot tickets) as Hfind.
  destruct (3 <? length tickets)%nat eqn:Hlen; [discriminate |].
  apply Nat.ltb_ge in Hlen.
  destruct (Storage.uniqueSize tickets =? length tickets)%nat eqn:Hsz; [| discriminate].
  destruct (List.find _ tickets) as [ticket |]; [discriminate |].
  cbn [negb]. intros [= <-]. cbn [Storage.fixedTicketsQueue].
  repeat split.
  - exact Hlen.
  - apply Huniq. reflexivity.
  - intros t Ht. apply validateTicketNumber_true. cbn [Storage.entries].
    destruct (Hfind t Ht) as [e [He Het]].
    apply list_elem_of_fmap. exists e. split; [symmetry; exact Het | exact He].
Qed.

Lemma queue_valid_after_set_witness :
  Storage.fixedTicketsQueue
    (snd (Storage.setFixedTicketsQueue ["T3"; "T2"] 7 StorageSample.snapshot0))
  = ["T3"; "T2"].
Proof.
  exact (proj1 (queue_valid_after_set ["T3"; "T2"] 7 StorageSample.snapshot0 _ eq_refl)).
Defined.

(** X12.  replaceWheelList installs the new entries, ticket numbers in the
    order of the participants, and carries the queue and the fixed ticket
    over unchecked: afterwards a ticket number validates exactly when a new
    participant has it, so a queued ticket that the new list lacks stays
    queued and no longer validates. *)
Theorem replaceWheelList_keeps_queue (trim : string -> string)
    (participants : list Excel.Participant) (now : Z)
    (snapshot : Storage.WheelListSnapshot) :
  let snapshot' := StorageOps.replaceWheelList trim participants now snapshot in
  Storage.fixedTicketsQueue snapshot' = Storage.fixedTicketsQueue snapshot /\
  Storage.fixedTicketNumber snapshot' = Storage.fixedTicketNumber snapshot /\
  Storage.ticketNumber <$> Storage.entries snapshot'
    = Excel.ticketNumber <$> participants /\
  (forall t, StorageOps.validateTicketNumber snapshot' t = true <->
             t ∈ Excel.ticketNumber <$> participants) /\
  (forall t, t ∈ Storage.fixedTicketsQueue snapshot ->
     t ∉ Excel.ticketNumber <$> participants ->
     t ∈ Storage.fixedTicketsQueue snapshot' /\
     StorageOps.validateTicketNumber snapshot' t = false).
Proof.
  intros snapshot'.
  assert (Htickets : Storage.ticketNumber <$> Storage.entries snapshot'
                     = Excel.ticketNumber <$> participants).
  { subst snapshot'. cbn [StorageOps.replaceWheelList Storage.entries].
    rewrite <- list_fmap_compose. reflexivity. }
  assert (Hvalid : forall t, StorageOps.validateTicketNumber snapshot' t = true <->
                             t ∈ Excel.ticketNumber <$> participants).
  { intros t. rewrite validateTicketNumber_true, Htickets. reflexivity. }
  split; [reflexivity |]. split; [reflexivity |]. split; [exact Htickets |].
  split; [exact Hvalid |].
  intros t Hin Hnot. split; [exact Hin |].
  destruct (StorageOps.validateTicketNumber snapshot' t) eqn:E; [| reflexivity].
  exfalso. apply Hnot. apply Hvalid. exact E.
Qed.

(** X13.  validateTicketNumber and getEntryByTicket agree: a ticket number
    validates exactly when getEntryByTicket finds an entry, and the entry
    found carries that ticket number and is the first such entry of the
    list. *)
Theorem getEntryByTicket_first (snapshot : Storage.WheelListSnapshot) (ticket : string) :
  (StorageOps.validateTicketNumber snapshot ticket = true <->
   is_Some (StorageOps.getEntryByTicket snapshot ticket)) /\
  (forall e, StorageOps.getEntryByTicket snapshot ticket = Some e ->
     Storage.ticketNumber e = ticket /\
     exists i, Storage.entries snapshot !! i = Some e /\
       forall j e', (j < i)%nat -> Storage.entries snapshot !! j = Some e' ->
         Storage.ticketNumber e' <> ticket).
Proof.
  unfold StorageOps.getEntryByTicket. split.
  - rewrite validateTicketNumber_true, list_elem_of_fmap. split.
    + intros [e [Ht He]]. apply list_elem_of_In in He.
      destruct (List.find _ (Storage.entries snapshot)) as [x |] eqn:Hfind; [eauto |].
      pose proof (List.find_none _ _ Hfind e He) as Hno. simpl in Hno.
      apply String.eqb_neq in Hno. congruence.
    + intros [e He]. apply List.find_some in He as [Hin Ht].
      exists e. split; [symmetry; apply String.eqb_eq; exact Ht |].
      apply list_elem_of_In. exact Hin.
  - intros e He. apply find_first in He as [i [Hi [Ht Hfirst]]].
    split; [apply String.eqb_eq; exact Ht |].
    exists i. split; [exact Hi |].
    intros j e' Hlt Hj. apply String.eqb_neq. apply (Hfirst j e' Hlt Hj).
Qed.

(** ** The pointer colour *)

Section PointerColour.

(** Dividing by a positive width keeps the slice bounds. *)
Lemma quotient_in_slice (b w : Q) (i : nat) :
  0 < w -> num i * w <= b -> b < (num i + 1) * w ->
  Qfloor (b / w) = Z.of_nat i.
Proof.
  intros Hw Hlo Hhi.
  assert (Hy : b == (b / w) * w) by (field; lra).
  set (y := b / w) in *. clearbody y.
  apply floor_unique; fold (num i).
  - destruct (Qlt_le_dec y (num i)) as [Hlt | Hle]; [exfalso | exact Hle].
    assert (0 < (num i - y) * w) by (apply Qmult_lt_0_compat; lra). lra.
  - destruct (Qlt_le_dec y (num i + 1)) as [Hlt | Hle]; [exact Hlt | exfalso].
    assert (0 <= (y - (num i + 1)) * w) by (apply Qmult_le_0_compat; lra). lra.
Qed.

Lemma adjustedAngle_fromTop (p : Q) :
  0 <= p -> p < 360 -> Js.rem (p + 90) 360 == fromTop p.
Proof.
  intros H0 H1. unfold fromTop. ltb_case p 270 E.
  - rewrite rem360_small; lra.
  - rewrite rem360_second; lra.
Qed.

Lemma pointerSafeIndex_resolveWinner (finalRotation : Q) (count : nat) :
  (0 < count)%nat ->
  pointerSafeIndex finalRotation count = Z.of_nat (resolveWinner finalRotation count) /\
  (resolveWinner finalRotation count < count)%nat.
Proof.
  intros Hc.
  destruct (pointer_range finalRotation) as [Hp0 Hp1].
  destruct (findSlice_found count Hc _ Hp0 Hp1) as [i [Hi [Hin Hfind]]].
  assert (Hres : resolveWinner finalRotation count = i).
  { unfold resolveWinner. rewrite Hfind. apply Nat.mod_small. exact Hi. }
  rewrite Hres. split; [| exact Hi].
  apply (inSlice_iff count Hc i _ Hi Hp0 Hp1) in Hin as [Hlo Hhi].
  pose proof (adjustedAngle_fromTop _ Hp0 Hp1) as Hadj.
  pose proof (width_pos count Hc) as Hw.
  unfold pointerSafeIndex. fold (pointerAngleInOriginal finalRotation).
  fold (sliceAngleOf count). unfold Js.floor.
  rewrite (quotient_in_slice _ (sliceAngleOf count) i Hw); [| lra | lra].
  apply Z.rem_small. lia.
Qed.

End PointerColour.


(** ** The easing curve and the animation *)

Section Easing.

Lemma mul_mono (a b c d : Q) : 0 <= a -> a <= b -> 0 <= c -> c <= d -> a * c <= b * d.
Proof.
  intros Ha Hab Hc Hcd.
  assert (0 <= (b - a) * d) by (apply Qmult_le_0_compat; lra).
  assert (0 <= a * (d - c)) by (apply Qmult_le_0_compat; lra).
  lra.
Qed.

Lemma cube_mono (a b : Q) : 0 <= a -> a <= b -> a ^ 3 <= b ^ 3.
Proof.
  intros Ha Hab.
  assert (Ea : a ^ 3 == a * a * a) by (simpl; ring).
  assert (Eb : b ^ 3 == b * b * b) by (simpl; ring).
  rewrite Ea, Eb.
  assert (H2 : a * a <= b * b) by (apply mul_mono; lra).
  assert (H0 : 0 <= a * a) by (apply Qmult_le_0_compat; lra).
  apply mul_mono; lra.
Qed.

Lemma fifth_mono (a b : Q) : 0 <= a -> a <= b -> a ^ 5 <= b ^ 5.
Proof.
  intros Ha Hab.
  assert (Ea : a ^ 5 == (a * a) * (a * a) * a) by (simpl; ring).
  assert (Eb : b ^ 5 == (b * b) * (b * b) * b) by (simpl; ring).
  rewrite Ea, Eb.
  assert (H2 : a * a <= b * b) by (apply mul_mono; lra).
  assert (H0 : 0 <= a * a) by (apply Qmult_le_0_compat; lra).
  assert (H4 : (a * a) * (a * a) <= (b * b) * (b * b)) by (apply mul_mono; lra).
  assert (H40 : 0 <= (a * a) * (a * a)) by (apply Qmult_le_0_compat; lra).
  apply mul_mono; lra.
Qed.

(** The two branches with their constants evaluated. *)
Lemma ease_low (t : Q) : t < 0.2 -> ease t == (625 # 17) * t ^ 3.
Proof.
  intros Ht. unfold ease. cbv zeta. ltb_case t 0.20 E; [| lra].
  apply Qmult_comp; [vm_compute; reflexivity | reflexivity].
Qed.

Lemma ease_high (t : Q) : 0.2 <= t -> ease t == 1 - (9375 # 4352) * (1 - t) ^ 5.
Proof.
  intros Ht. unfold ease. cbv zeta. ltb_case t 0.20 E; [lra |].
  unfold Qminus at 1 3. apply Qplus_comp; [reflexivity |].
  apply Qopp_comp, Qmult_comp; [vm_compute; reflexivity | reflexivity].
Qed.

Lemma ease_low_bounds (t : Q) :
  0 <= t -> t < 0.2 -> 0 <= ease t /\ ease t <= 5 # 17.
Proof.
  intros H0 H1. rewrite (ease_low t H1).
  pose proof (cube_mono 0 t ltac:(lra) H0) as Hlo.
  pose proof (cube_mono t 0.2 H0 ltac:(lra)) as Hhi.
  assert (E0 : 0 ^ 3 == 0) by reflexivity.
  assert (E2 : 0.2 ^ 3 == 1 # 125) by reflexivity.
  rewrite E0 in Hlo. rewrite E2 in Hhi. split; lra.
Qed.

Lemma ease_high_bounds (t : Q) :
  0.2 <= t -> t <= 1 -> 5 # 17 <= ease t /\ ease t <= 1.
Proof.
  intros H0 H1. rewrite (ease_high t H0).
  pose proof (fifth_mono 0 (1 - t) ltac:(lra) ltac:(lra)) as Hlo.
  pose proof (fifth_mono (1 - t) 0.8 ltac:(lra) ltac:(lra)) as Hhi.
  assert (E0 : 0 ^ 5 == 0) by reflexivity.
  assert (E8 : 0.8 ^ 5 == 1024 # 3125) by reflexivity.
  rewrite E0 in Hlo. rewrite E8 in Hhi. split; lra.
Qed.

Lemma ease_range (t : Q) : 0 <= t -> t <= 1 -> 0 <= ease t /\ ease t <= 1.
Proof.
  intros H0 H1. destruct (Qlt_le_dec t 0.2) as [Hlt | Hge].
  - destruct (ease_low_bounds t H0 Hlt). split; lra.
  - destruct (ease_high_bounds t Hge H1). split; lra.
Qed.

Lemma ease_mono (s t : Q) : 0 <= s -> s <= t -> t <= 1 -> ease s <= ease t.
Proof.
  intros H0 Hst H1.
  destruct (Qlt_le_dec t 0.2) as [Ht | Ht].
  - rewrite (ease_low s) by lra. rewrite (ease_low t Ht).
    pose proof (cube_mono s t H0 Hst). lra.
  - destruct (Qlt_le_dec s 0.2) as [Hs | Hs].
    + destruct (ease_low_bounds s H0 Hs). destruct (ease_high_bounds t Ht H1). lra.
    + rewrite (ease_high s Hs), (ease_high t Ht).
      pose proof (fifth_mono (1 - t) (1 - s) ltac:(lra) ltac:(lra)). lra.
Qed.

(** The progress of a tick inside the plan. *)
Lemma progress_inside (elapsed duration : Q) :
  0 < duration -> 0 <= elapsed -> elapsed < duration ->
  Js.min (elapsed / duration) 1 = elapsed / duration /\
  0 <= elapsed / duration /\ elapsed / duration < 1.
Proof.
  intros Hd H0 H1.
  assert (Hlo : 0 <= elapsed / duration) by (apply Qle_shift_div_l; lra).
  assert (Hhi : elapsed / duration < 1) by (apply Qlt_shift_div_r; lra).
  split; [| split; assumption].
  unfold Js.min. destruct (Qle_bool (elapsed / duration) 1) eqn:E; [reflexivity |].
  assert (Hle : elapsed / duration <= 1) by lra.
  apply Qle_bool_iff in Hle. congruence.
Qed.

Lemma progress_done (elapsed duration : Q) :
  0 < duration -> duration <= elapsed ->
  Js.ltb (Js.min (elapsed / duration) 1) 1 = false.
Proof.
  intros Hd Hle. apply ltb_ge.
  assert (Hone : 1 <= elapsed / duration) by (apply Qle_shift_div_l; lra).
  unfold Js.min. destruct (Qle_bool _ 1); lra.
Qed.

End Easing.

(** X15.  The easing curve starts at 0, ends at 1, its two branches meet at
    the crossover 0.2 (value 5/17), it stays within [[0, 1]] on [[0, 1]] and
    never decreases there. *)
Theorem ease_monotone_unit_interval (s t : Q) :
  0 <= s -> s <= t -> t <= 1 ->
  ease 0 == 0 /\ ease 1 == 1 /\
  ease 0.2 == 5 # 17 /\ (625 # 17) * 0.2 ^ 3 == 5 # 17 /\
  0 <= ease s /\ ease s <= ease t /\ ease t <= 1.
Proof.
  intros H0 Hst H1.
  destruct (ease_range s H0 ltac:(lra)) as [Hs0 _].
  destruct (ease_range t ltac:(lra) H1) as [_ Ht1].
  pose proof (ease_mono s t H0 Hst H1) as Hmono.
  repeat split; try assumption; vm_compute; reflexivity.
Qed.

Lemma ease_monotone_unit_interval_witness : ease 0.1 <= ease 0.5.
Proof.
  refine (proj1 (proj2 (proj2 (proj2 (proj2 (proj2
            (ease_monotone_unit_interval 0.1 0.5 _ _ _))))))); vm_compute; discriminate.
Defined.

(** X16.  A tick inside the plan keeps the spin running.  For a scheduled
    plan with positive duration and end rotation not below its start, a tick
    at a time in [[startTime, startTime + duration)] leaves the spin flag,
    the scheduled plan, the queue and the winner as they are and shows a
    rotation between the start and the end rotation; a later tick inside the
    plan never shows a smaller rotation. *)
Theorem animate_in_flight (t t' : Q) (s : WheelState) (a : Animation) :
  animationFrame s = Some a -> animationCompleted s = false ->
  0 < animDuration a -> startRotation a <= animEndRotation a ->
  startTime a <= t -> t <= t' -> t' < startTime a + animDuration a ->
  isSpinning (animate t s) = isSpinning s /\
  animationFrame (animate t s) = Some a /\
  fixedTicketsQueue (animate t s) = fixedTicketsQueue s /\
  winner (animate t s) = winner s /\
  startRotation a <= finalRotation (animate t s) /\
  finalRotation (animate t s) <= finalRotation (animate t' s) /\
  finalRotation (animate t' s) <= animEndRotation a.
Proof.
  intros Hframe Hdone Hdur Hfwd Hstart Htt Hend.
  destruct (progress_inside (t - startTime a) (animDuration a) Hdur ltac:(lra) ltac:(lra))
    as [Hmin [Hp0 Hp1]].
  destruct (progress_inside (t' - startTime a) (animDuration a) Hdur ltac:(lra) ltac:(lra))
    as [Hmin' [Hp0' Hp1']].
  assert (Hle : (t - startTime a) / animDuration a <= (t' - startTime a) / animDuration a).
  { apply Qle_shift_div_l; [exact Hdur |].
    assert (E : (t - startTime a) / animDuration a * animDuration a == t - startTime a)
      by (field; lra).
    rewrite E. lra. }
  assert (Hshape : forall x, startTime a <= x -> x < startTime a + animDuration a ->
            animate x s =
            {| names := names s; ticketNumbers := ticketNumbers s;
               ticketAngleMap := ticketAngleMap s;
               fixedTicketsQueue := fixedTicketsQueue s; spinCount := spinCount s;
               isSpinning := isSpinning s;
               finalRotation :=
                 startRotation a + (animEndRotation a - startRotation a)
                                   * ease ((x - startTime a) / animDuration a);
               animationFrame := Some a;
               isFrozen := isFrozen s; animationCompleted := false;
               winnerProcessed := winnerProcessed s; winner := winner s |}).
  { intros x Hx0 Hx1.
    destruct (progress_inside (x - startTime a) (animDuration a) Hdur ltac:(lra) ltac:(lra))
      as [Hm [_ Hlt]].
    unfold animate. rewrite Hframe, Hdone. cbv zeta. rewrite Hm.
    apply ltb_lt in Hlt. rewrite Hlt. reflexivity. }
  rewrite (Hshape t) by lra. rewrite (Hshape t') by lra. cbn.
  destruct (ease_range _ Hp0 ltac:(lra)) as [He0 _].
  destruct (ease_range _ Hp0' ltac:(lra)) as [_ He1'].
  pose proof (ease_mono _ _ Hp0 Hle ltac:(lra)) as Hmono.
  set (e := ease ((t - startTime a) / animDuration a)) in *.
  set (e' := ease ((t' - startTime a) / animDuration a)) in *.
  clearbody e e'.
  assert (0 <= (animEndRotation a - startRotation a) * e)
    by (apply Qmult_le_0_compat; lra).
  assert (0 <= (animEndRotation a - startRotation a) * (e' - e))
    by (apply Qmult_le_0_compat; lra).
  assert (0 <= (animEndRotation a - startRotation a) * (1 - e'))
    by (apply Qmult_le_0_compat; lra).
  repeat split; lra.
Qed.

Lemma animate_in_flight_witness :
  let s := after (spinWheel plainSpinDraws (idleWheel [])) in
  isSpinning (animate 100 s) = true /\
  finalRotation (animate 100 s) <= finalRotation (animate 5000 s).
Proof.
  intros s.
  destruct (animate_in_flight 100 5000 s (naturalAnimation plainSpinDraws (idleWheel [])))
    as [Hspin [_ [_ [_ [_ [Hmono _]]]]]].
  - reflexivity.
  - reflexivity.
  - vm_compute. reflexivity.
  - vm_compute. discriminate.
  - vm_compute. discriminate.
  - vm_compute. discriminate.
  - vm_compute. reflexivity.
  - split; [rewrite Hspin; reflexivity | exact Hmono].
Defined.

(** X17.  The tick that reaches the end of the plan settles the spin, once.
    For a scheduled plan with positive duration, a tick at or after
    [startTime + duration] sets the rotation to exactly the planned end
    rotation, clears the spin flag and the scheduled plan, freezes the wheel
    and records as winner the index the winner block resolves from the end
    rotation (below the number of names of the plan, when there are names)
    with the ticket number at that index; any further tick changes
    nothing. *)
Theorem animate_settles_once (t t' : Q) (s : WheelState) (a : Animation) :
  animationFrame s = Some a -> animationCompleted s = false ->
  winnerProcessed s = false ->
  0 < animDuration a -> startTime a + animDuration a <= t ->
  let index := resolveWinner (animEndRotation a) (length (animNames a)) in
  finalRotation (animate t s) = animEndRotation a /\
  isSpinning (animate t s) = false /\
  isFrozen (animate t s) = true /\
  animationFrame (animate t s) = None /\
  winner (animate t s)
  = Some {| winnerIndex := index; winnerTicketNumber := ticketNumbers s !! index |} /\
  fixedTicketsQueue (animate t s) = fixedTicketsQueue s /\
  (animNames a <> [] -> (index < length (animNames a))%nat) /\
  animate t' (animate t s) = animate t s.
Proof.
  intros Hframe Hdone Hproc Hdur Hend index.
  pose proof (progress_done (t - startTime a) (animDuration a) Hdur ltac:(lra)) as Hp.
  assert (Hshape : animate t s =
            {| names := names s; ticketNumbers := ticketNumbers s;
               ticketAngleMap := ticketAngleMap s;
               fixedTicketsQueue := fixedTicketsQueue s; spinCount := spinCount s;
               isSpinning := false;
               finalRotation := animEndRotation a;
               animationFrame := None;
               isFrozen := true; animationCompleted := true;
               winnerProcessed := false;
               winner := Some {| winnerIndex := index;
                                 winnerTicketNumber := ticketNumbers s !! index |} |}).
  { unfold animate. rewrite Hframe, Hdone. cbv zeta. rewrite Hp, Hproc. reflexivity. }
  rewrite Hshape. cbn. repeat split.
  intros Hne. subst index.
  assert (Hc : (0 < length (animNames a))%nat)
    by (destruct (animNames a); simpl; [contradiction | lia]).
  apply (pointerSafeIndex_resolveWinner (animEndRotation a) _ Hc).
Qed.

Lemma animate_settles_once_witness :
  let s := after (spinWheel plainSpinDraws (idleWheel ["T3"])) in
  finalRotation (animate 11000 s) == 2182.5 /\ isSpinning (animate 11000 s) = false.
Proof.
  intros s.
  assert (Hframe : exists a, animationFrame s = Some a) by (eexists; reflexivity).
  destruct Hframe as [a Ha].
  destruct (animate_settles_once 11000 0 s a Ha eq_refl eq_refl) as [Hrot [Hspin _]].
  - injection Ha as <-. vm_compute. reflexivity.
  - injection Ha as <-. vm_compute. discriminate.
  - split; [| exact Hspin]. rewrite Hrot. injection Ha as <-. vm_compute. reflexivity.
Defined.

(** ** Accepted spins *)

Section AcceptedSpins.

Implicit Types (s : WheelState) (d : SpinDraws).

Lemma spinWheel_keeps d s :
  ticketAngleMap (after (spinWheel d s)) = ticketAngleMap s /\
  names (after (spinWheel d s)) = names s /\
  ticketNumbers (after (spinWheel d s)) = ticketNumbers s /\
  finalRotation (after (spinWheel d s)) = finalRotation s.
Proof.
  unfold spinWheel. destruct (isSpinning s || _); [repeat split |].
  destruct (consumeQueue s) as [[[ticket modeLog] queue1] count1].
  destruct ticket as [ticket |]; [| repeat split].
  destruct (ticketAngleMap s) as [m |]; [| repeat split].
  destruct (tryFixedSpin _ _ _ _ _) as [e | [targetAngle r]]; repeat split.
Qed.

Lemma step_keeps_map (a : Action) s :
  ticketAngleMap (step a s) = ticketAngleMap s.
Proof.
  destruct a as [d | t |]; simpl.
  - apply spinWheel_keeps.
  - unfold animate. destruct (animationFrame s) as [a |]; [| reflexivity].
    destruct (animationCompleted s); [reflexivity |].
    destruct (Js.ltb _ 1); reflexivity.
  - reflexivity.
Qed.

(** When every queued ticket has an angle, an action drops the head exactly
    when it is an accepted spin. *)
Lemma step_queue_exact (a : Action) s :
  (forall t m, t ∈ fixedTicketsQueue s -> ticketAngleMap s = Some m ->
     is_Some (ticketToAngle m !! t)) ->
  fixedTicketsQueue (step a s)
  = drop (if accepted a s then 1 else 0) (fixedTicketsQueue s).
Proof.
  intros Hall. destruct a as [d | t |]; simpl.
  - destruct (isSpinning s || (length (names s) =? 0)%nat) eqn:Hguard; simpl.
    + rewrite (spinWheel_refused d s Hguard). reflexivity.
    + apply orb_false_iff in Hguard as [Hspin Hlen].
      assert (Hnames : names s <> []).
      { intros Hnil. rewrite Hnil in Hlen. discriminate. }
      destruct (fixedTicketsQueue s) as [| ticket rest] eqn:Hq.
      * apply (spinWheel_natural d s Hspin Hnames Hq).
      * apply (spinWheel_queue d s ticket rest Hspin Hnames Hq).
        intros m Hm. apply (Hall ticket m); [apply elem_of_cons; now left | exact Hm].
  - apply animate_queue.
  - reflexivity.
Qed.

Lemma natural_delta_bounds (start : Q) d :
  unit_draw (uSpins d) -> unit_draw (uAngle d) ->
  start + 1800 <= naturalEndRotation start d /\ naturalEndRotation start d < start + 3240.
Proof. intros [H0 H1] [H2 H3]. unfold naturalEndRotation. split; lra. Qed.

Lemma tryFixedSpin_bounds (entries : list Entry) (start : Q) (ticket : string)
    (count : nat) d (targetAngle : Q) (r : FixedSpinResult) :
  fixedDrawsOk (fixedDraws d) ->
  tryFixedSpin start ticket (buildTicketAngleMap entries) count d = inr (targetAngle, r) ->
  start + 1870 < endRotation r /\ endRotation r < start + 3422 /\
  10700 <= duration r /\ duration r < 11300 /\ profile r = cycleProfile count.
Proof.
  intros [_ [Hdur [Hrot Hmicro]]]. unfold tryFixedSpin.
  destruct (getAngleForTicket ticket (buildTicketAngleMap entries)); [| discriminate].
  destruct (calculateFixedSpinByTicket _ _ _ _ _) as [e | r'] eqn:Hcalc; [discriminate |].
  intros [= _ <-].
  destruct (calculateFixedSpinByTicket_found _ _ _ _ _ _ Hcalc)
    as [target [Hget [Hsize [Hprof [Hd Hend]]]]].
  destruct (buildTicketAngleMap_range entries ticket target Hget) as [Ht0 Ht1].
  destruct (angleToTarget_range target start Ht0 Ht1) as [Ha0 Ha1].
  destruct (fixed_delta_bounds (profile r') _ (uRotations (fixedDraws d))
              (uMicro (fixedDraws d)) _ Hsize Hrot Hmicro Ha0 Ha1) as [Hlo Hhi].
  destruct (profileDuration_bounds (profile r') (uDuration (fixedDraws d)) Hdur)
    as [Hd0 Hd1].
  rewrite Hend, Hd. repeat split; try lra. exact Hprof.
Qed.

End AcceptedSpins.

(** X18.  Every accepted spin turns the wheel forward.  From an idle state
    with names, whose angle index (if any) was built by buildTicketAngleMap,
    and with draws in [[0, 1)], spinWheel schedules a plan that starts at the
    current rotation and ends between 1800 and 3422 degrees further, with a
    duration in [[10700, 11300)] ms; it sets the spin flag, counts the spin and
    leaves the displayed rotation to the animation. *)
Theorem accepted_spin_plan_bounds (d : SpinDraws) (s : WheelState) (entries : list Entry) :
  isSpinning s = false -> names s <> [] ->
  (forall m, ticketAngleMap s = Some m -> m = buildTicketAngleMap entries) ->
  fixedDrawsOk (fixedDraws d) -> unit_draw (uSpins d) -> unit_draw (uAngle d) ->
  exists a,
    animationFrame (after (spinWheel d s)) = Some a /\
    startRotation a = finalRotation s /\ animNames a = names s /\ startTime a = now d /\
    finalRotation s + 1800 <= animEndRotation a /\
    animEndRotation a < finalRotation s + 3422 /\
    10700 <= animDuration a /\ animDuration a < 11300 /\
    isSpinning (after (spinWheel d s)) = true /\
    spinCount (after (spinWheel d s)) = S (spinCount s) /\
    finalRotation (after (spinWheel d s)) = finalRotation s.
Proof.
  intros Hspin Hnames Hmap Hfd Hu Hv.
  destruct (natural_delta_bounds (finalRotation s) d Hu Hv) as [Hn0 Hn1].
  assert (Hnatural :
    exists a,
      Some {| animNames := names s; startRotation := finalRotation s;
              animEndRotation := naturalEndRotation (finalRotation s) d;
              animDuration := 11000; startTime := now d |} = Some a /\
      startRotation a = finalRotation s /\ animNames a = names s /\ startTime a = now d /\
      finalRotation s + 1800 <= animEndRotation a /\
      animEndRotation a < finalRotation s + 3422 /\
      10700 <= animDuration a /\ animDuration a < 11300).
  { eexists. split; [reflexivity |]. cbn. repeat split; lra. }
  unfold spinWheel, consumeQueue. rewrite (guard_open s Hspin Hnames).
  destruct (fixedTicketsQueue s) as [| ticket rest].
  { destruct Hnatural as [a Ha]. exists a. cbn.
    destruct Ha as [Ha Hrest]. split; [exact Ha |].
    repeat split; try apply Hrest. }
  destruct (orNull ticket) as [t |].
  2: { destruct Hnatural as [a Ha]. exists a. cbn.
       destruct Ha as [Ha Hrest]. split; [exact Ha |].
       repeat split; try apply Hrest. }
  destruct (ticketAngleMap s) as [m |] eqn:Hm.
  2: { destruct Hnatural as [a Ha]. exists a. cbn.
       destruct Ha as [Ha Hrest]. split; [exact Ha |].
       repeat split; try apply Hrest. }
  rewrite (Hmap m eq_refl).
  destruct (tryFixedSpin _ _ _ _ _) as [e | [targetAngle r]] eqn:Htry.
  { destruct Hnatural as [a Ha]. exists a. cbn.
    destruct Ha as [Ha Hrest]. split; [exact Ha |].
    repeat split; try apply Hrest. }
  destruct (tryFixedSpin_bounds entries _ _ _ d _ _ Hfd Htry) as [H0 [H1 [H2 [H3 _]]]].
  eexists. cbn. split; [reflexivity |]. cbn. repeat split; lra.
Qed.

Lemma accepted_spin_plan_bounds_witness :
  exists a,
    animationFrame (after (spinWheel plainSpinDraws (idleWheel ["T3"]))) = Some a /\
    0 + 1800 <= animEndRotation a.
Proof.
  destruct (accepted_spin_plan_bounds plainSpinDraws (idleWheel ["T3"]) eightEntries)
    as [a [Ha [_ [_ [_ [Hlo _]]]]]].
  - reflexivity.
  - discriminate.
  - intros m [= <-]. reflexivity.
  - repeat split; vm_compute; congruence.
  - split; vm_compute; congruence.
  - split; vm_compute; congruence.
  - exists a. split; [exact Ha | exact Hlo].
Defined.

(** X19.  Exact FIFO consumption.  When every queued ticket has an angle in
    the index (or no index was built), then along any sequence of spin
    requests, animation ticks and winner dismissals the queue is the original
    queue without its first k tickets, k the number of accepted spins; the
    index is the same throughout. *)
Theorem queue_consumed_in_order (acts : list Action) (s : WheelState) :
  (forall t m, t ∈ fixedTicketsQueue s -> ticketAngleMap s = Some m ->
     is_Some (ticketToAngle m !! t)) ->
  fixedTicketsQueue (fst (run acts s)) = drop (snd (run acts s)) (fixedTicketsQueue s) /\
  ticketAngleMap (fst (run acts s)) = ticketAngleMap s.
Proof.
  revert s. induction acts as [| a rest IH]; intros s Hall; simpl.
  - split; reflexivity.
  - pose proof (step_queue_exact a s Hall) as Hq.
    pose proof (step_keeps_map a s) as Hm.
    destruct (IH (step a s)) as [IHq IHm].
    { intros t m Ht Hmap. rewrite Hm in Hmap. apply (Hall t m); [| exact Hmap].
      rewrite Hq in Ht. apply (subseteq_drop _ _ _ Ht). }
    destruct (run rest (step a s)) as [s' k]. simpl in *.
    split; [| congruence].
    rewrite IHq, Hq, drop_drop. f_equal. destruct (accepted a s); lia.
Qed.

Lemma queue_consumed_in_order_witness :
  fixedTicketsQueue
    (fst (run [RequestSpin plainSpinDraws; Frame 11000; CloseWinner]
              (idleWheel ["T3"; "T1"; "T8"])))
  = ["T1"; "T8"].
Proof.
  refine (eq_trans (proj1 (queue_consumed_in_order
            [RequestSpin plainSpinDraws; Frame 11000; CloseWinner]
            (idleWheel ["T3"; "T1"; "T8"]) _)) _).
  - intros t m Ht [= <-].
    apply elem_of_cons in Ht as [-> | Ht]; [vm_compute; eauto |].
    apply elem_of_cons in Ht as [-> | Ht]; [vm_compute; eauto |].
    apply elem_of_cons in Ht as [-> | Ht]; [vm_compute; eauto |].
    apply elem_of_nil in Ht. contradiction.
  - vm_compute. reflexivity.
Defined.

(** ** Loading a list into the wheel *)

Section ListLoading.

Lemma someDiffers_false (idx : nat) (previous current : list string) :
  someDiffers idx previous current = false <->
  forall k x, previous !! k = Some x -> current !! (idx + k)%nat = Some x.
Proof.
  revert idx. induction previous as [| x rest IH]; intros idx; simpl.
  - split; [intros _ k y Hk; discriminate | reflexivity].
  - rewrite orb_false_iff, IH. split.
    + intros [Hhead Htail] [| k] y Hk; simpl in Hk.
      * injection Hk as <-. rewrite Nat.add_0_r.
        destruct (current !! idx) as [y |]; [| discriminate].
        apply negb_false_iff, String.eqb_eq in Hhead. congruence.
      * replace (idx + S k)%nat with (S idx + k)%nat by lia. apply Htail. exact Hk.
    + intros Hall. split.
      * specialize (Hall 0%nat x eq_refl). rewrite Nat.add_0_r in Hall.
        rewrite Hall. apply negb_false_iff, String.eqb_refl.
      * intros k y Hk. replace (S idx + k)%nat with (idx + S k)%nat by lia.
        apply Hall. exact Hk.
Qed.

(** The memo's comparison is list equality. *)
Lemma listChanged_false (previous current : list string) :
  listChanged previous current = false <-> previous = current.
Proof.
  unfold listChanged. rewrite orb_false_iff, negb_false_iff, Nat.eqb_eq, someDiffers_false.
  split.
  - intros [Hlen Hall]. apply list_eq. intros i.
    destruct (previous !! i) as [x |] eqn:Hi.
    + symmetry. apply (Hall i x Hi).
    + symmetry. apply lookup_ge_None. rewrite <- Hlen. apply lookup_ge_None. exact Hi.
  - intros ->. split; [reflexivity | intros k x Hk; exact Hk].
Qed.

Lemma entriesOfProps_tickets (props : WheelProps) :
  length (initialTicketNumbers props) = length (initialNames props) ->
  ticketNumber <$> entriesOfProps props = initialTicketNumbers props /\
  length (entriesOfProps props) = length (initialNames props).
Proof.
  intros Hlen. unfold entriesOfProps. split.
  - rewrite fmap_zip_with_r; [reflexivity | reflexivity | lia].
  - rewrite length_zip_with. lia.
Qed.

(** The index built from the props, when there are as many unique ticket
    numbers as names. *)
Lemma entriesOfProps_index (props : WheelProps) :
  length (initialTicketNumbers props) = length (initialNames props) ->
  NoDup (initialTicketNumbers props) ->
  size (ticketToAngle (buildTicketAngleMap (entriesOfProps props)))
  = length (initialNames props) /\
  forall i t, initialTicketNumbers props !! i = Some t ->
    getAngleForTicket t (buildTicketAngleMap (entriesOfProps props))
    = Some (normalize (segmentCenterAngle (360 / num (length (initialNames props))) i)).
Proof.
  intros Hlen Hnd.
  destruct (entriesOfProps_tickets props Hlen) as [Htickets Hlength]. split.
  - rewrite buildTicketAngleMap_size, Htickets.
    destruct (distinct_count (initialTicketNumbers props)) as [[_ Hsz] | [Hno _]];
      [| contradiction].
    rewrite Hsz. exact Hlen.
  - intros i t Hi.
    assert (He : exists e, entriesOfProps props !! i = Some e /\ ticketNumber e = t).
    { assert (Hf : (ticketNumber <$> entriesOfProps props) !! i = Some t)
        by (rewrite Htickets; exact Hi).
      rewrite list_lookup_fmap in Hf.
      destruct (entriesOfProps props !! i) as [e |]; [| discriminate].
      exists e. split; [reflexivity | injection Hf as <-; reflexivity]. }
    destruct He as [e [He <-]].
    assert (Hnd' : NoDup (ticketNumber <$> entriesOfProps props))
      by (rewrite Htickets; exact Hnd).
    destruct (buildTicketAngleMap_last _ i e He (NoDup_no_later _ i e Hnd' He))
      as [Hangle _].
    rewrite Hlength in Hangle. exact Hangle.
Qed.

End ListLoading.

(** X20.  Loading a list.  When the wheel is idle and the memo sees its first
    render or a list that differs from the previous one, it returns the new
    names, resets the spin count, and installs the queue of the props
    whatever was left of the old one.  If the names are not empty and there
    are as many ticket numbers as names, it builds a new index; with unique
    ticket numbers that index gives the ticket at position i the centre of
    slice i and has one binding per ticket.  Otherwise (no names, or lengths
    that differ) the old index is kept. *)
Theorem memo_loads_list (props : WheelProps) (refs : MemoRefs) (s : WheelState) :
  isSpinning s = false ->
  (isInitialMount refs = true \/ previousNames refs <> initialNames props \/
   previousTicketNumbers refs <> initialTicketNumbers props) ->
  let N := length (initialNames props) in
  exists refs' s',
    stableNamesMemo props refs s = (initialNames props, refs', s') /\
    previousNames refs' = initialNames props /\
    previousTicketNumbers refs' = initialTicketNumbers props /\
    isInitialMount refs' = false /\ isInitialized refs' = true /\
    fixedTicketsQueue s' = queueOfProps props /\ spinCount s' = 0%nat /\
    (initialNames props <> [] -> length (initialTicketNumbers props) = N ->
     NoDup (initialTicketNumbers props) ->
     exists m, ticketAngleMap s' = Some m /\
       size (ticketToAngle m) = N /\
       forall i t, initialTicketNumbers props !! i = Some t ->
         getAngleForTicket t m
         = Some (normalize (segmentCenterAngle (360 / num N) i))) /\
    ((initialNames props = [] \/ length (initialTicketNumbers props) <> N) ->
     ticketAngleMap s' = ticketAngleMap s).
Proof.
  intros Hspin Hchanged N.
  assert (Hcond : (listChanged (previousNames refs) (initialNames props)
                   || listChanged (previousTicketNumbers refs) (initialTicketNumbers props)
                   || isInitialMount refs) && negb (isSpinning s) = true).
  { rewrite Hspin, andb_true_r.
    destruct Hchanged as [Hm | [Hn | Ht]].
    - rewrite Hm. apply orb_true_r.
    - destruct (listChanged (previousNames refs) (initialNames props)) eqn:E;
        [reflexivity | apply listChanged_false in E; contradiction].
    - destruct (listChanged (previousTicketNumbers refs) (initialTicketNumbers props)) eqn:E;
        [rewrite orb_true_r; reflexivity | apply listChanged_false in E; contradiction]. }
  unfold stableNamesMemo. cbv zeta. rewrite Hcond, Hspin. cbn [andb].
  eexists. eexists. split; [reflexivity |].
  cbn [previousNames previousTicketNumbers isInitialMount isInitialized
       fixedTicketsQueue spinCount ticketAngleMap].
  repeat split.
  - intros Hne Hlen Hnd.
    assert (Hpos : (0 <? length (initialNames props))%nat = true).
    { apply Nat.ltb_lt. destruct (initialNames props); simpl; [contradiction | lia]. }
    assert (Heq : (length (initialTicketNumbers props) =? length (initialNames props))%nat
                  = true) by (apply Nat.eqb_eq; exact Hlen).
    rewrite Hpos, Heq. cbn [andb].
    eexists. split; [reflexivity |].
    apply (entriesOfProps_index props Hlen Hnd).
  - intros [Hnil | Hlen].
    + rewrite Hnil. reflexivity.
    + assert (Hneq : (length (initialTicketNumbers props) =? length (initialNames props))%nat
                     = false) by (apply Nat.eqb_neq; exact Hlen).
      rewrite Hneq, andb_false_r. reflexivity.
Qed.

Lemma memo_loads_list_witness :
  exists refs' s',
    stableNamesMemo
      {| initialNames := label <$> eightEntries; initialTicketNumbers := eightTickets;
         fixedTicketNumberProp := None; fixedTicketsQueueProp := ["T3"] |}
      {| isInitialized := false; isInitialMount := true;
         previousNames := []; previousTicketNumbers := [] |}
      emptyWheel
    = (label <$> eightEntries, refs', s') /\
    fixedTicketsQueue s' = ["T3"].
Proof.
  destruct (memo_loads_list
      {| initialNames := label <$> eightEntries; initialTicketNumbers := eightTickets;
         fixedTicketNumberProp := None; fixedTicketsQueueProp := ["T3"] |}
      {| isInitialized := false; isInitialMount := true;
         previousNames := []; previousTicketNumbers := [] |}
      emptyWheel eq_refl (or_introl eq_refl))
    as [refs' [s' [Hmemo [_ [_ [_ [_ [Hq _]]]]]]]].
  exists refs', s'. split; [exact Hmemo | exact Hq].
Defined.

(** X21.  When the memo does not reload.  While a spin is running the memo
    returns the previous names and changes no ref, whatever the props are;
    the same holds when the wheel is idle, past its first render, and names
    and ticket numbers equal the previous ones element by element - a new
    queue prop alone does not re-arm the queue, and consumed tickets stay
    consumed. *)
Theorem memo_keeps_state (props : WheelProps) (refs : MemoRefs) (s : WheelState) :
  (isSpinning s = true \/
   (isInitialMount refs = false /\ previousNames refs = initialNames props /\
    previousTicketNumbers refs = initialTicketNumbers props)) ->
  stableNamesMemo props refs s = (previousNames refs, refs, s).
Proof.
  intros [Hspin | [Hmount [Hnames Htickets]]]; unfold stableNamesMemo.
  - rewrite Hspin. destruct (isInitialized refs); [reflexivity |].
    cbn [andb negb]. rewrite andb_false_r. reflexivity.
  - destruct (isSpinning s && isInitialized refs); [reflexivity |].
    assert (Hn : listChanged (previousNames refs) (initialNames props) = false)
      by (apply listChanged_false; exact Hnames).
    assert (Ht : listChanged (previousTicketNumbers refs) (initialTicketNumbers props)
                 = false) by (apply listChanged_false; exact Htickets).
    rewrite Hn, Ht, Hmount. reflexivity.
Qed.

Lemma memo_keeps_state_witness :
  stableNamesMemo
    {| initialNames := ["A"]; initialTicketNumbers := ["T1"];
       fixedTicketNumberProp := None; fixedTicketsQueueProp := ["T1"] |}
    {| isInitialized := true; isInitialMount := false;
       previousNames := ["A"]; previousTicketNumbers := ["T1"] |}
    (idleWheel [])
  = (["A"],
     {| isInitialized := true; isInitialMount := false;
        previousNames := ["A"]; previousTicketNumbers := ["T1"] |},
     idleWheel []).
Proof.
  apply (memo_keeps_state
    {| initialNames := ["A"]; initialTicketNumbers := ["T1"];
       fixedTicketNumberProp := None; fixedTicketsQueueProp := ["T1"] |}
    {| isInitialized := true; isInitialMount := false;
       previousNames := ["A"]; previousTicketNumbers := ["T1"] |}).
  right. repeat split.
Defined.

(** ** Combining uploaded lists *)

Section Combine.
Import Excel.

Implicit Types (p q : Participant) (pre l combined : list Participant).

Lemma firstOccurrence_elem pre p : firstOccurrence pre p -> p ∈ pre.
Proof. intros [i [Hi _]]. apply list_elem_of_lookup. eauto. Qed.

Lemma firstOccurrence_snoc_old pre p q :
  firstOccurrence pre q -> firstOccurrence (pre ++ [p]) q.
Proof.
  intros [i [Hi Hfirst]]. exists i. split.
  - rewrite lookup_app_l by (apply (lookup_lt_Some _ _ _ Hi)). exact Hi.
  - intros j r Hlt Hj. apply (Hfirst j r Hlt).
    rewrite lookup_app_l in Hj; [exact Hj |].
    apply lookup_lt_Some in Hi. lia.
Qed.

Lemma firstOccurrence_snoc_inv pre p q :
  firstOccurrence (pre ++ [p]) q ->
  firstOccurrence pre q \/
  (q = p /\ ticketNumber p ∉ ticketNumber <$> pre).
Proof.
  intros [i [Hi Hfirst]].
  destruct (decide (i < length pre)%nat) as [Hlt | Hge].
  - left. exists i. rewrite lookup_app_l in Hi by exact Hlt. split; [exact Hi |].
    intros j r Hj Hr. apply (Hfirst j r Hj).
    rewrite lookup_app_l by lia. exact Hr.
  - right. rewrite lookup_app_r in Hi by lia.
    destruct (i - length pre)%nat as [| n] eqn:En; simpl in Hi; [| destruct n; discriminate].
    injection Hi as <-. split; [reflexivity |].
    intros Hin. apply list_elem_of_fmap in Hin as [r [Ht Hr]].
    apply list_elem_of_lookup in Hr as [j Hj].
    apply (Hfirst j r).
    + apply lookup_lt_Some in Hj. lia.
    + rewrite lookup_app_l by (apply (lookup_lt_Some _ _ _ Hj)). exact Hj.
    + symmetry. exact Ht.
Qed.

Lemma firstOccurrence_snoc_new pre p :
  ticketNumber p ∉ ticketNumber <$> pre -> firstOccurrence (pre ++ [p]) p.
Proof.
  intros Hnew. exists (length pre). split.
  - rewrite lookup_app_r by lia. rewrite Nat.sub_diag. reflexivity.
  - intros j q Hlt Hj Heq. apply Hnew. rewrite <- Heq.
    rewrite lookup_app_l in Hj by exact Hlt.
    apply list_elem_of_fmap. exists q. split; [reflexivity |].
    apply list_elem_of_lookup. eauto.
Qed.

Lemma addParticipant_collected pre st p :
  collected pre st -> collected (pre ++ [p]) (addParticipant st p).
Proof.
  destruct st as [combined seen]. intros [Hseen [Hnd [Hfirst [Htickets Hsub]]]].
  simpl in *. unfold addParticipant.
  assert (Hin_iff : ticketNumber p ∈ seen <-> ticketNumber p ∈ ticketNumber <$> pre)
    by (rewrite Hseen; apply elem_of_list_to_set).
  assert (Hset : (list_to_set (ticketNumber <$> pre ++ [p]) : gset string)
                 = {[ticketNumber p]} ∪ seen).
  { rewrite Hseen, fmap_app. apply set_eq. intros x.
    rewrite elem_of_list_to_set, elem_of_app, elem_of_union, elem_of_singleton,
      elem_of_list_to_set. simpl. rewrite list_elem_of_singleton. tauto. }
  destruct (bool_decide (ticketNumber p ∈ seen)) eqn:E.
  - apply bool_decide_eq_true in E. assert (Hold := proj1 Hin_iff E).
    split; [| split; [| split; [| split]]]; simpl.
    + rewrite Hset. symmetry. apply subseteq_union_1_L, singleton_subseteq_l. exact E.
    + exact Hnd.
    + intros q. rewrite Hfirst. split.
      * apply firstOccurrence_snoc_old.
      * intros Hq. apply firstOccurrence_snoc_inv in Hq as [Hq | [_ Hnew]];
          [exact Hq | contradiction].
    + intros t. rewrite Htickets, fmap_app, elem_of_app. split; [tauto |].
      intros [Ht | Ht]; [exact Ht |].
      simpl in Ht. apply list_elem_of_singleton in Ht. subst t. exact Hold.
    + apply sublist_inserts_r. exact Hsub.
  - apply bool_decide_eq_false in E.
    assert (Hnew : ticketNumber p ∉ ticketNumber <$> pre) by (rewrite <- Hin_iff; exact E).
    split; [| split; [| split; [| split]]]; simpl.
    + symmetry. exact Hset.
    + rewrite fmap_app. apply NoDup_app. split; [exact Hnd | split].
      * intros t Ht Hp. simpl in Hp. apply list_elem_of_singleton in Hp. subst t.
        apply Hnew. apply Htickets. exact Ht.
      * apply NoDup_singleton.
    + intros q. rewrite elem_of_app, Hfirst, list_elem_of_singleton. split.
      * intros [Hq | ->];
          [apply firstOccurrence_snoc_old; exact Hq
          | apply firstOccurrence_snoc_new; exact Hnew].
      * intros Hq. apply firstOccurrence_snoc_inv in Hq as [Hq | [-> _]]; tauto.
    + intros t. rewrite !fmap_app, !elem_of_app, Htickets. reflexivity.
    + apply sublist_app; [exact Hsub | reflexivity].
Qed.

Lemma foldl_collected l pre st :
  collected pre st -> collected (pre ++ l) (foldl addParticipant st l).
Proof.
  revert pre st. induction l as [| p l IH]; intros pre st Hst; simpl.
  - rewrite app_nil_r. exact Hst.
  - replace (pre ++ p :: l) with ((pre ++ [p]) ++ l) by (rewrite <- app_assoc; reflexivity).
    apply IH, addParticipant_collected, Hst.
Qed.

Lemma collectUnique_concat (participantArrays : list (list Participant)) st :
  foldl (fun st participants => foldl addParticipant st participants) st participantArrays
  = foldl addParticipant st (concat participantArrays).
Proof.
  revert st. induction participantArrays as [| a rest IH]; intros st; simpl.
  - reflexivity.
  - rewrite foldl_app. apply IH.
Qed.

Lemma collectUnique_collected (participantArrays : list (list Participant)) :
  collected (concat participantArrays) (collectUnique participantArrays).
Proof.
  unfold collectUnique. rewrite collectUnique_concat.
  apply (foldl_collected (concat participantArrays) [] ([], ∅)).
  split; [| split; [| split; [| split]]]; simpl.
  - reflexivity.
  - apply NoDup_nil_2.
  - intros p. split.
    + intros Hp. apply elem_of_nil in Hp. contradiction.
    + intros [i [Hi _]]. discriminate.
  - intros t. reflexivity.
  - apply sublist_nil_l.
Qed.

Lemma swap_Permutation combined i j : swap combined i j ≡ₚ combined.
Proof.
  unfold swap. destruct (combined !! i) as [ci |] eqn:Hi; [| reflexivity].
  destruct (combined !! j) as [cj |] eqn:Hj; [| reflexivity].
  apply Permutation_insert_swap; assumption.
Qed.

Lemma shuffleFrom_Permutation draws i combined :
  shuffleFrom draws i combined ≡ₚ combined.
Proof.
  revert combined. induction i as [| i IH]; intros combined; simpl; [reflexivity |].
  rewrite IH. apply swap_Permutation.
Qed.

(** With draws of [[0, 1)] the loop only swaps positions [j <= i]. *)
Lemma shuffle_index_in_range (u : Q) (i : nat) :
  unit_draw u -> (Z.to_nat (Js.floor (u * num (i + 1))) <= i)%nat.
Proof.
  intros [H0 H1]. unfold Js.floor.
  assert (Hn : num (i + 1) == num i + 1).
  { replace (i + 1)%nat with (S i) by lia. apply num_S. }
  pose proof (num_nonneg i) as Hi.
  assert (Hup : u * num (i + 1) < num i + 1).
  { assert (0 < (1 - u) * (num i + 1)) by (apply Qmult_lt_0_compat; lra).
    rewrite Hn. lra. }
  pose proof (Qfloor_le (u * num (i + 1))) as Hf.
  assert (Hlt : inject_Z (Qfloor (u * num (i + 1))) < inject_Z (Z.of_nat i + 1)).
  { rewrite inject_Z_plus. change (inject_Z 1) with 1. fold (num i). lra. }
  rewrite <- Zlt_Qlt in Hlt. lia.
Qed.

End Combine.

(** X22.  combineParticipants returns participants with pairwise different
    ticket numbers, each one the first participant of the concatenated arrays
    with its ticket number, min(D, 3000) of them, D being the number of
    distinct ticket numbers.  When D is at most 3000 nothing is lost and the
    order of first occurrence is kept.  (With draws of [[0, 1)] the shuffle
    only swaps positions [j <= i].) *)
Theorem combineParticipants_unique (draws : nat -> Q)
    (participantArrays : list (list Excel.Participant)) :
  let all := concat participantArrays in
  let result := Excel.combineParticipants draws participantArrays in
  let D := size (list_to_set (Excel.ticketNumber <$> all) : gset string) in
  NoDup (Excel.ticketNumber <$> result) /\
  length result = Nat.min D 3000 /\
  (forall p, p ∈ result -> firstOccurrence all p) /\
  ((D <= 3000)%nat ->
   result `sublist_of` all /\
   forall t, t ∈ Excel.ticketNumber <$> all -> t ∈ Excel.ticketNumber <$> result) /\
  (forall u i, unit_draw u -> (Z.to_nat (Js.floor (u * num (i + 1))) <= i)%nat).
Proof.
  intros all result D.
  destruct (collectUnique_collected participantArrays)
    as [_ [Hnd [Hfirst [Htickets Hsub]]]].
  fold all in Hfirst, Htickets, Hsub.
  set (combined := (Excel.collectUnique participantArrays).1) in *.
  assert (HD : length combined = D).
  { subst D.
    assert (Hset : (list_to_set (Excel.ticketNumber <$> all) : gset string)
                   = list_to_set (Excel.ticketNumber <$> combined)).
    { apply set_eq. intros t. rewrite !elem_of_list_to_set. symmetry. apply Htickets. }
    rewrite Hset, size_list_to_set by exact Hnd. rewrite length_fmap. reflexivity. }
  assert (Hresult : result = if (3000 <? length combined)%nat
                             then take 3000 (Excel.shuffleFrom draws (length combined - 1) combined)
                             else combined) by reflexivity.
  destruct (3000 <? length combined)%nat eqn:Hover;
    [apply Nat.ltb_lt in Hover | apply Nat.ltb_ge in Hover]; rewrite Hresult.
  - pose proof (shuffleFrom_Permutation draws (length combined - 1) combined) as Hperm.
    set (shuffled := Excel.shuffleFrom draws (length combined - 1) combined) in *.
    split; [| split; [| split; [| split]]].
    + rewrite fmap_take. apply (sublist_NoDup _ (Excel.ticketNumber <$> shuffled)).
      * rewrite Hperm. exact Hnd.
      * apply sublist_take.
    + rewrite length_take, (Permutation_length Hperm). lia.
    + intros p Hp. apply Hfirst. rewrite <- Hperm.
      apply (subseteq_take 3000 shuffled). exact Hp.
    + intros HD'. lia.
    + intros u i Hu. apply shuffle_index_in_range. exact Hu.
  - split; [exact Hnd | split; [lia | split; [| split]]].
    + intros p Hp. apply Hfirst. exact Hp.
    + intros _. split; [exact Hsub | intros t Ht; apply Htickets; exact Ht].
    + intros u i Hu. apply shuffle_index_in_range. exact Hu.
Qed.

(** X23.  From upload to index.  When the combined participants replace the
    list, their ticket numbers are handed to the wheel with as many names, and
    the wheel renders for the first time, the index built by the memo has one
    binding per participant and gives the participant at position i the
    centre of slice i; whatever queue was stored is installed unchanged. *)
Theorem upload_reaches_index (draws : nat -> Q)
    (participantArrays : list (list Excel.Participant)) (trim : string -> string)
    (now : Z) (snapshot : Storage.WheelListSnapshot) (labels : list string)
    (refs : MemoRefs) (s : WheelState) :
  let participants := Excel.combineParticipants draws participantArrays in
  let snapshot' := StorageOps.replaceWheelList trim participants now snapshot in
  let props :=
    {| initialNames := labels;
       initialTicketNumbers := Storage.ticketNumber <$> Storage.entries snapshot';
       fixedTicketNumberProp := Storage.fixedTicketNumber snapshot';
       fixedTicketsQueueProp := Storage.fixedTicketsQueue snapshot' |} in
  participants <> [] -> length labels = length participants ->
  isSpinning s = false -> isInitialMount refs = true ->
  exists m,
    ticketAngleMap (stableNamesMemo props refs s).2 = Some m /\
    size (ticketToAngle m) = length participants /\
    (forall i p, participants !! i = Some p ->
       getAngleForTicket (Excel.ticketNumber p) m
       = Some (normalize (segmentCenterAngle (360 / num (length participants)) i))) /\
    (Storage.fixedTicketsQueue snapshot <> [] ->
     fixedTicketsQueue (stableNamesMemo props refs s).2 = Storage.fixedTicketsQueue snapshot).
Proof.
  intros participants snapshot' props Hne Hlabels Hspin Hmount.
  assert (Htickets : initialTicketNumbers props = Excel.ticketNumber <$> participants).
  { subst props snapshot'. cbn [initialTicketNumbers StorageOps.replaceWheelList Storage.entries].
    rewrite <- list_fmap_compose. reflexivity. }
  assert (Hlen : length (initialTicketNumbers props) = length (initialNames props)).
  { rewrite Htickets, length_fmap. cbn [initialNames props]. symmetry. exact Hlabels. }
  assert (Hnd : NoDup (initialTicketNumbers props)).
  { rewrite Htickets.
    destruct (collectUnique_collected participantArrays) as [_ [Hnd _]].
    subst participants. unfold Excel.combineParticipants.
    destruct (3000 <? _)%nat; [| exact Hnd].
    rewrite fmap_take. eapply sublist_NoDup; [| apply sublist_take].
    rewrite shuffleFrom_Permutation. exact Hnd. }
  destruct (entriesOfProps_index props Hlen Hnd) as [Hsize Hangles].
  assert (Hpos : (0 <? length (initialNames props))%nat = true).
  { apply Nat.ltb_lt. cbn [initialNames props]. rewrite Hlabels.
    destruct participants; simpl; [contradiction | lia]. }
  assert (Heq : (length (initialTicketNumbers props) =? length (initialNames props))%nat
                = true) by (apply Nat.eqb_eq; exact Hlen).
  unfold stableNamesMemo. cbv zeta.
  rewrite Hspin, Hmount, orb_true_r. cbn [andb negb snd].
  cbn [ticketAngleMap fixedTicketsQueue]. rewrite Hpos, Heq. cbn [andb].
  eexists. split; [reflexivity |].
  cbn [initialNames props] in Hsize, Hangles. rewrite Hlabels in Hsize, Hangles.
  split; [exact Hsize | split].
  - intros i p Hp. apply Hangles. rewrite Htickets, list_lookup_fmap, Hp. reflexivity.
  - intros Hq. unfold queueOfProps. cbn [fixedTicketsQueueProp props].
    subst snapshot'. cbn [StorageOps.replaceWheelList Storage.fixedTicketsQueue].
    destruct (Storage.fixedTicketsQueue snapshot); [contradiction | reflexivity].
Qed.

Lemma upload_reaches_index_witness :
  let arrays :=
    [[ {| Excel.firstName := "Ann"; Excel.lastName := "Lee"; Excel.ticketNumber := "T1" |};
       {| Excel.firstName := "Bo"; Excel.lastName := "Diaz"; Excel.ticketNumber := "T2" |} ];
     [ {| Excel.firstName := "Cy"; Excel.lastName := "Moss"; Excel.ticketNumber := "T1" |} ]] in
  let refs := {| isInitialized := false; isInitialMount := true;
                 previousNames := []; previousTicketNumbers := [] |} in
  let props :=
    {| initialNames := ["Ann Lee"; "Bo Diaz"];
       initialTicketNumbers :=
         Storage.ticketNumber <$>
           Storage.entries
             (StorageOps.replaceWheelList (fun x => x)
                (Excel.combineParticipants (fun _ => 0) arrays) 5 StorageSample.snapshot0);
       fixedTicketNumberProp := None;
       fixedTicketsQueueProp := ["T1"] |} in
  exists m,
    ticketAngleMap (stableNamesMemo props refs emptyWheel).2 = Some m /\
    size (ticketToAngle m) = 2%nat.
Proof.
  intros arrays refs props.
  destruct (upload_reaches_index (fun _ => 0) arrays (fun x => x) 5 StorageSample.snapshot0
              ["Ann Lee"; "Bo Diaz"] refs emptyWheel)
    as [m [Hm [Hsize _]]].
  - vm_compute. discriminate.
  - vm_compute. reflexivity.
  - reflexivity.
  - reflexivity.
  - exists m. split; [exact Hm | exact Hsize].
Defined.

(** ** Where a targeted plan lands *)

Section Landing.

Lemma angleToTarget_cong (targetAngle currentRotation : Q) :
  cong360 (angleToTarget targetAngle currentRotation) (targetAngle + currentRotation).
Proof.
  destruct (currentPointerAngle_cong currentRotation) as [k Hk].
  unfold angleToTarget.
  destruct (Js.ltb (targetAngle - currentPointerAngle currentRotation) 0).
  - exists (1 + - k)%Z. rewrite inject_Z_plus, inject_Z_opp. qlra.
  - exists (- k)%Z. rewrite inject_Z_opp. lra.
Qed.

(** Pointer angles of congruent rotations are equal. *)
Lemma pointer_of_cong (r1 r2 : Q) :
  cong360 r1 r2 -> pointerAngleInOriginal r1 == pointerAngleInOriginal r2.
Proof.
  intros Hc. destruct (pointer_range r1). destruct (pointer_range r2).
  apply cong360_unique; try assumption.
  eapply cong360_trans; [apply pointer_cong |].
  eapply cong360_trans; [apply cong360_opp, Hc |].
  apply cong360_sym, pointer_cong.
Qed.

Lemma fromTop_of_eq (p1 p2 : Q) :
  0 <= p1 -> p1 < 360 -> 0 <= p2 -> p2 < 360 -> p1 == p2 -> fromTop p1 == fromTop p2.
Proof.
  intros H1 H2 H3 H4 Heq.
  destruct (fromTop_range p1 H1 H2). destruct (fromTop_range p2 H3 H4).
  apply cong360_unique; try assumption.
  eapply cong360_trans; [apply fromTop_cong |].
  eapply cong360_trans; [| apply cong360_sym, fromTop_cong].
  apply cong360_eq. lra.
Qed.

End Landing.

(** X24.  The winner depends on the rotation modulo 360 only: adding any
    whole number of turns (positive or negative) to the final rotation does
    not change the index the winner block returns. *)
Theorem resolveWinner_whole_turns (frozenRot : Q) (count : nat) (k : Z) :
  (0 < count)%nat ->
  resolveWinner (frozenRot + inject_Z k * 360) count = resolveWinner frozenRot count.
Proof.
  intros Hc.
  destruct (pointer_range frozenRot) as [Hp0 Hp1].
  destruct (pointer_range (frozenRot + inject_Z k * 360)) as [Hq0 Hq1].
  assert (Heq : pointerAngleInOriginal (frozenRot + inject_Z k * 360)
                == pointerAngleInOriginal frozenRot).
  { apply pointer_of_cong. exists k. lra. }
  pose proof (fromTop_of_eq _ _ Hq0 Hq1 Hp0 Hp1 Heq) as Htop.
  destruct (findSlice_found count Hc _ Hp0 Hp1) as [i [Hi [Hin Hfind]]].
  destruct (findSlice_found count Hc _ Hq0 Hq1) as [j [Hj [Hjn Hfind']]].
  assert (Hin' : inSlice (sliceAngleOf count) i
                   (pointerAngleInOriginal (frozenRot + inject_Z k * 360)) = true).
  { apply (inSlice_iff count Hc i _ Hi Hq0 Hq1).
    apply (inSlice_iff count Hc i _ Hi Hp0 Hp1) in Hin as [Hlo Hhi].
    split; lra. }
  assert (j = i) by (apply (inSlice_unique count Hc j i _ Hj Hi Hq0 Hq1); assumption).
  subst j. unfold resolveWinner. rewrite Hfind, Hfind'. reflexivity.
Qed.

Lemma resolveWinner_whole_turns_witness :
  resolveWinner (22.5 + inject_Z (-7) * 360) 8 = resolveWinner 22.5 8.
Proof. apply (resolveWinner_whole_turns 22.5 8 (-7)). lia. Defined.

(** X25.  Where a targeted plan points.  Whenever calculateFixedSpinByTicket
    returns, the pointer angle that the winner block derives from its end
    rotation is the angle of [[0, 360)] congruent to
    [-(2*currentRotation + targetAngle + turns*360 + offset)], with
    [turns = min + u*(max - min)] of the profile and [offset] the micro
    offset: the current rotation enters twice and the target angle with a
    minus sign. *)
Theorem targeted_plan_pointer_angle (currentRotation : Q) (ticket : string)
    (m : TicketAngleMap) (profile0 : option RotationProfile) (d : FixedDraws)
    (r : FixedSpinResult) :
  calculateFixedSpinByTicket currentRotation ticket m profile0 d = inr r ->
  exists targetAngle,
    ticketToAngle m !! ticket = Some targetAngle /\
    0 <= pointerAngleInOriginal (endRotation r) /\
    pointerAngleInOriginal (endRotation r) < 360 /\
    cong360 (pointerAngleInOriginal (endRotation r))
      (- (2 * currentRotation + targetAngle
          + (minRotations (profile r)
             + uRotations d * (maxRotations (profile r) - minRotations (profile r))) * 360
          + microOffset (profile r) (size (ticketToAngle m)) (uMicro d))).
Proof.
  intros Hcalc.
  destruct (calculateFixedSpinByTicket_found _ _ _ _ _ _ Hcalc)
    as [targetAngle [Hget [_ [_ [_ Hend]]]]].
  exists targetAngle. split; [exact Hget |].
  destruct (pointer_range (endRotation r)) as [H0 H1].
  split; [exact H0 | split; [exact H1 |]].
  eapply cong360_trans; [apply pointer_cong |]. apply cong360_opp.
  rewrite Hend.
  destruct (angleToTarget_cong targetAngle currentRotation) as [k Hk].
  exists k. lra.
Qed.

Lemma targeted_plan_pointer_angle_witness :
  exists r targetAngle,
    calculateFixedSpinByTicket 0 "T3" eightMap (Some ProfileB) plainDraws = inr r /\
    ticketToAngle eightMap !! "T3" = Some targetAngle /\
    pointerAngleInOriginal (endRotation r) < 360.
Proof.
  eexists.
  destruct (targeted_plan_pointer_angle 0 "T3" eightMap (Some ProfileB) plainDraws _ eq_refl)
    as [targetAngle [Hget [_ [Hlt _]]]].
  exists targetAngle. split; [reflexivity | split; [exact Hget | exact Hlt]].
Defined.

(** X26.  A targeted spin that finds its ticket.  From an idle state with
    names, when the head of the queue is a non-empty ticket number with an
    angle in the index, spinWheel plans with calculateFixedSpinByTicket under
    the profile picked by the new spin count modulo 3 (A, B, C for remainders
    0, 1, 2), logs the plan without a warning, and leaves the tail of the
    queue; three spins in a row use three different profiles. *)
Theorem targeted_spin_uses_cycled_profile (d : SpinDraws) (s : WheelState)
    (ticket : string) (rest : list string) (m : TicketAngleMap) (targetAngle : Q) :
  isSpinning s = false -> names s <> [] ->
  fixedTicketsQueue s = ticket :: rest -> ticket <> "" ->
  ticketAngleMap s = Some m -> ticketToAngle m !! ticket = Some targetAngle ->
  (exists r,
     calculateFixedSpinByTicket (finalRotation s) ticket m
       (Some (cycleProfile (S (spinCount s)))) (fixedDraws d) = inr r /\
     profile r = cycleProfile (S (spinCount s)) /\
     animationFrame (after (spinWheel d s))
     = Some {| animNames := names s; startRotation := finalRotation s;
               animEndRotation := endRotation r; animDuration := duration r;
               startTime := now d |} /\
     console (spinWheel d s)
     = [LogSpinStarted (ticket :: rest);
        LogFixedModeActivated (Some ticket) (length rest) (S (spinCount s));
        LogFixedSpinByTicket ticket targetAngle (endRotation r) (duration r) (profile r)] /\
     fixedTicketsQueue (after (spinWheel d s)) = rest) /\
  cycleProfile (S (spinCount s)) <> cycleProfile (S (S (spinCount s))) /\
  cycleProfile (S (S (spinCount s))) <> cycleProfile (S (S (S (spinCount s)))) /\
  cycleProfile (S (spinCount s)) <> cycleProfile (S (S (S (spinCount s)))) /\
  cycleProfile (S (S (S (S (spinCount s))))) = cycleProfile (S (spinCount s)).
Proof.
  intros Hspin Hnames Hq Hne Hmap Hget. split.
  - assert (Hnull : orNull ticket = Some ticket).
    { unfold orNull. destruct (String.eqb ticket "") eqn:E; [| reflexivity].
      apply String.eqb_eq in E. contradiction. }
    unfold spinWheel, consumeQueue.
    rewrite (guard_open s Hspin Hnames), Hq, Hnull, Hmap. cbv beta iota.
    unfold tryFixedSpin, getAngleForTicket. rewrite Hget.
    unfold calculateFixedSpinByTicket. rewrite Hget. cbv zeta.
    eexists. split; [reflexivity |]. cbn. repeat split.
  - assert (Hcases : (S (spinCount s) mod 3 = 0 \/ S (spinCount s) mod 3 = 1
                      \/ S (spinCount s) mod 3 = 2)%nat).
    { pose proof (Nat.mod_upper_bound (S (spinCount s)) 3 ltac:(lia)). lia. }
    assert (H2 : (S (S (spinCount s)) mod 3 = (S (spinCount s) mod 3 + 1) mod 3)%nat).
    { replace (S (S (spinCount s))) with (S (spinCount s) + 1)%nat by lia.
      rewrite Nat.Div0.add_mod_idemp_l. reflexivity. }
    assert (H3 : (S (S (S (spinCount s))) mod 3 = (S (spinCount s) mod 3 + 2) mod 3)%nat).
    { replace (S (S (S (spinCount s)))) with (S (spinCount s) + 2)%nat by lia.
      rewrite Nat.Div0.add_mod_idemp_l. reflexivity. }
    assert (H4 : (S (S (S (S (spinCount s)))) mod 3 = S (spinCount s) mod 3)%nat).
    { replace (S (S (S (S (spinCount s))))) with (S (spinCount s) + 1 * 3)%nat by lia.
      apply Nat.Div0.mod_add. }
    unfold cycleProfile. rewrite H2, H3, H4.
    destruct Hcases as [-> | [-> | ->]]; cbn; repeat split; discriminate.
Qed.

Lemma targeted_spin_uses_cycled_profile_witness :
  fixedTicketsQueue (after (spinWheel plainSpinDraws (idleWheel ["T3"; "T1"]))) = ["T1"].
Proof.
  destruct (targeted_spin_uses_cycled_profile plainSpinDraws (idleWheel ["T3"; "T1"])
              "T3" ["T1"] eightMap (2880 # 128))
    as [[r [_ [_ [_ [_ Hq]]]]] _].
  - reflexivity.
  - discriminate.
  - reflexivity.
  - discriminate.
  - reflexivity.
  - vm_compute. reflexivity.
  - exact Hq.
Defined.
